(** * DIP-CTV image colorization: a shallow embedding of
      [src/image_colorization.py] and the properties of its specification.

    Conventions of the embedding.

    - Tensor entries (torch [float]) are elements of an abstract scalar type
      [F] carrying the arithmetic the program uses (class [Scalar]).  No law
      is assumed of the arithmetic unless a theorem lists it (class
      [ScalarLaws], or the laws it names); exact rational arithmetic [Qc]
      is the executable instance used in the examples, and a second
      instance rounds every operation to single precision.
    - A 2-D tensor is a list of rows, a 3-D tensor a list of planes.  The
      leading batch axis of extent 1 that the program threads through
      ([x[None, :]], [x[0, ...]]) is left implicit.
    - Functions imported from modules that are not part of the file
      ([COEFS], [eccv16], [BaseColor], [resize_image], [upsample],
      [get_net], [Downsampler], the torch optimizer and autograd) are
      parameters, gathered in the classes [Externals] and [Prior]. *)

From Stdlib Require Import List Arith ZArith QArith Qround Qcanon Bool Lia Lqa.
Import ListNotations.

Close Scope Q_scope.
Close Scope Qc_scope.
Open Scope nat_scope.

Set Implicit Arguments.

(* ================================================================= *)
(** ** Scalars *)

Class Scalar (F : Type) : Type := {
  flit : Q -> F;            (* a numeric literal of the program *)
  fadd : F -> F -> F;
  fsub : F -> F -> F;
  fmul : F -> F -> F;
  fdiv : F -> F -> F;
  fltb : F -> F -> bool     (* strict comparison [<] *)
}.

(** The laws of an ordered field that the projection theorems rely on. *)
Class ScalarLaws (F : Type) {SF : Scalar F} : Prop := {
  fltb_irrefl : forall x, fltb x x = false;
  fltb_trans : forall x y z, fltb x y = true -> fltb y z = true -> fltb x z = true;
  fltb_cotrans : forall x y z, fltb x y = true -> fltb x z = true \/ fltb z y = true;
  fmul_1_r : forall x, fmul x (flit 1) = x;
  fsub_diag : forall x, fsub x x = flit 0;
  fsub_eq_0 : forall x y, fsub x y = flit 0 -> x = y;
  fmul_0_0 : fmul (flit 0) (flit 0) = flit 0;
  fadd_0_0 : fadd (flit 0) (flit 0) = flit 0;
  sumsq_nonneg : forall x y, fltb (fadd (fmul x x) (fmul y y)) (flit 0) = false;
  sumsq_pos : forall x y,
      fltb (flit 0) (fadd (fmul x x) (fmul y y)) = false -> x = flit 0 /\ y = flit 0
}.

Arguments ScalarLaws F {SF}.

(* ================================================================= *)
(** ** n-dimensional arrays (the input image of [convert_to_single_channel]) *)

#[warnings="-register-all"]
Inductive ndarray (A : Type) : Type :=
| Item : A -> ndarray A
| Axis : list (ndarray A) -> ndarray A.

Arguments Item {A} _.
Arguments Axis {A} _.

(** [image.shape]: the extent of every axis, read along the first entries. *)
Fixpoint shape {A} (t : ndarray A) : list nat :=
  match t with
  | Item _ => []
  | Axis l => length l :: match l with [] => [] | x :: _ => shape x end
  end.

(** [image.ndim] *)
Definition ndim {A} (t : ndarray A) : nat := length (shape t).

(** [image.select(dim, index)]: the slice at [index] along axis [dim]. *)
Fixpoint select {A} (dim index : nat) (t : ndarray A) : ndarray A :=
  match t with
  | Item x => Item x
  | Axis l =>
      match dim with
      | 0 => nth index l t
      | S d => Axis (map (select d index) l)
      end
  end.

Fixpoint ndmap {A B} (f : A -> B) (t : ndarray A) : ndarray B :=
  match t with
  | Item x => Item (f x)
  | Axis l => Axis (map (ndmap f) l)
  end.

(** A shape with its axis [dim] removed. *)
Definition remove_axis (dim : nat) (shp : list nat) : list nat :=
  firstn dim shp ++ skipn (S dim) shp.

(** [convert_to_single_channel]: the [for dim in range(3)] loop with its
    early [return] is the search for the first axis of extent 3. *)
Definition convert_to_single_channel {A} (image : ndarray A) : ndarray A :=
  if ndim image =? 3 then
    match find (fun dim => nth dim (shape image) 0 =? 3) (seq 0 3) with
    | Some dim => select dim 0 image
    | None => image
    end
  else image.

(* ================================================================= *)
(** ** Tensors as nested lists *)

Definition Map2 (F : Type) : Type := list (list F).
Definition Tensor3 (F : Type) : Type := list (Map2 F).

(** Elementwise combination of two equally long lists. *)
Fixpoint zip_with {A B C} (f : A -> B -> C) (l1 : list A) (l2 : list B) : list C :=
  match l1, l2 with
  | x :: l1', y :: l2' => f x y :: zip_with f l1' l2'
  | _, _ => []
  end.

Definition zip2d {A B C} (f : A -> B -> C) (m1 : list (list A)) (m2 : list (list B))
  : list (list C) :=
  zip_with (zip_with f) m1 m2.

Definition map2d {A B} (f : A -> B) (m : list (list A)) : list (list B) :=
  map (map f) m.

(** Map with the position of each element. *)
Fixpoint imap_from {A B} (k : nat) (f : nat -> A -> B) (l : list A) : list B :=
  match l with
  | [] => []
  | x :: l' => f k x :: imap_from (S k) f l'
  end.

Definition imap {A B} (f : nat -> A -> B) (l : list A) : list B := imap_from 0 f l.

(** [m[h][w]] *)
Definition at2 {A} (d : A) (m : list (list A)) (h w : nat) : A :=
  nth w (nth h m []) d.

(** The list and the [h] x [w] map given by their entries. *)
Definition tabulate {A} (n : nat) (f : nat -> A) : list A := map f (seq 0 n).

Definition tabulate2 {A} (h w : nat) (f : nat -> nat -> A) : list (list A) :=
  tabulate h (fun i => tabulate w (f i)).

(** [t[c] = v] on the first axis; an index out of range (an IndexError in
    the program) leaves [t] as it is. *)
Fixpoint assign {A} (c : nat) (v : A) (t : list A) : list A :=
  match t, c with
  | [], _ => []
  | _ :: t', 0 => v :: t'
  | x :: t', S c' => x :: assign c' v t'
  end.

(** [torch.ones(h, w)] and the like. *)
Definition full {A} (h w : nat) (v : A) : list (list A) := repeat (repeat v w) h.

(** Extents of a map, read off its first row. *)
Definition height {A} (m : list (list A)) : nat := length m.
Definition width {A} (m : list (list A)) : nat := length (hd [] m).

(** [m] is a rectangular [h] x [w] map. *)
Definition is_map {A} (h w : nat) (m : list (list A)) : Prop :=
  length m = h /\ Forall (fun row => length row = w) m.

(** [t] is a [c] x [h] x [w] tensor. *)
Definition is_tensor {A} (c h w : nat) (t : list (list (list A))) : Prop :=
  length t = c /\ Forall (is_map h w) t.

Section ScalarTensors.
Context {F : Type} `{Scalar F}.

Definition fpow2 (x : F) : F := fmul x x.            (* torch.pow(x, 2) *)
Definition fnat (n : nat) : F := flit (inject_Z (Z.of_nat n)).

(** [torch.sum] of the entries, accumulated in storage order. *)
Definition fsum (l : list F) : F := fold_left fadd l (flit 0).

Definition flatten2 (m : Map2 F) : list F := concat m.
Definition flatten3 (t : Tensor3 F) : list F := concat (map flatten2 t).

(** [torch.nn.MSELoss()] (reduction [mean]) on flattened operands. *)
Definition mse_loss (x y : list F) : F :=
  fdiv (fsum (zip_with (fun a b => fpow2 (fsub a b)) x y)) (fnat (length x)).

(** [torch.clip(x, lo, hi)], elementwise. *)
Definition fclip (lo hi x : F) : F :=
  let y := if fltb x lo then lo else x in
  if fltb hi y then hi else y.

(** [torch.argmin] / [torch.argmax] of a 1-D tensor: the position of the
    first extremal entry. *)
Fixpoint argmin_from (best : nat) (vbest : F) (k : nat) (l : list F) : nat :=
  match l with
  | [] => best
  | x :: l' =>
      if fltb x vbest then argmin_from k x (S k) l'
      else argmin_from best vbest (S k) l'
  end.

Definition argmin (l : list F) : nat :=
  match l with
  | [] => 0
  | x :: l' => argmin_from 0 x 1 l'
  end.

Fixpoint argmax_from (best : nat) (vbest : F) (k : nat) (l : list F) : nat :=
  match l with
  | [] => best
  | x :: l' =>
      if fltb vbest x then argmax_from k x (S k) l'
      else argmax_from best vbest (S k) l'
  end.

Definition argmax (l : list F) : nat :=
  match l with
  | [] => 0
  | x :: l' => argmax_from 0 x 1 l'
  end.

(** The entries of a stack of planes at one pixel. *)
Definition pixel_column (t : Tensor3 F) (h w : nat) : list F :=
  map (fun plane => at2 (flit 0) plane h w) t.

(** [t.sum(axis=1)] on a [2 x bins x h x w] tensor, one [bins x h x w]
    stack at a time. *)
Definition sum_axis0 (t : Tensor3 F) : Map2 F :=
  tabulate2 (height (hd [] t)) (width (hd [] t))
    (fun h w => fsum (pixel_column t h w)).

(** [torch.argmin(t, dim=1)] and [torch.argmax(t, axis=1)] on a
    [1 x bins x h x w] tensor: one index per pixel. *)
Definition argmin_axis0 (t : Tensor3 F) : list (list nat) :=
  tabulate2 (height (hd [] t)) (width (hd [] t))
    (fun h w => argmin (pixel_column t h w)).

Definition argmax_axis0 (t : Tensor3 F) : list (list nat) :=
  tabulate2 (height (hd [] t)) (width (hd [] t))
    (fun h w => argmax (pixel_column t h w)).

(** [index.unsqueeze(2)]: every row becomes a one-row plane. *)
Definition unsqueeze_rows (index : list (list nat)) : list (list (list nat)) :=
  map (fun row => [row]) index.

(** [torch.gather(input, 1, index)]:
    [out[j][k][l] = input[index[j][k][l]][k][l]]. *)
Definition gather_axis0 (input : Tensor3 F) (index : list (list (list nat)))
  : Tensor3 F :=
  map (fun plane =>
         imap (fun k row =>
                 imap (fun l i => at2 (flit 0) (nth i input []) k l) row)
              plane)
      index.

(** [t.squeeze(2)] of a tensor whose planes have one row. *)
Definition squeeze_rows (t : Tensor3 F) : Map2 F := map (hd []) t.

(** [coefs[None, :, None, None] * ones] *)
Definition broadcast_mul (coefs : list F) (ones : Tensor3 F) : Tensor3 F :=
  zip_with (fun c plane => map2d (fun o => fmul c o) plane) coefs ones.
End ScalarTensors.

(* ================================================================= *)
(** ** The collaborators of the module *)

(** What [image_colorization.py] imports from the rest of the package and
    from torch, with the batch axis dropped. *)
Class Externals (F : Type) : Type := {
  COEFS : list (F * F);             (* src.coef_chrominance.COEFS, one (a, b) row per bin *)
  colorizer : Map2 F -> Tensor3 F;  (* COLORIZER: luminance -> distribution over the bins *)
  unnormalize_ab : F -> F;          (* BASE_COLOR.unnormalize_ab, entry by entry *)
  resize_image : ndarray F -> nat * nat -> Map2 F;  (* src.utils.resize_image *)
  upsample : Tensor3 F -> Tensor3 F;                (* src.utils.upsample *)
  lab_to_rgb : Tensor3 F -> Tensor3 F;              (* kornia.color.lab_to_rgb *)
  downsampler : Tensor3 F -> Tensor3 F;             (* src.dip.downsampler.Downsampler *)
  fsqrt : F -> F                                    (* torch.sqrt, entry by entry *)
}.

(** The deep-image-prior network on its fixed noise input, autograd and the
    Adam optimizer. *)
Class Prior (F : Type) : Type := {
  Params : Type;                      (* the weights of [dip_net] *)
  Grads : Type;
  AdamState : Type;
  dip_net : Params -> Tensor3 F;      (* self.dip_net(self.dip_input) *)
  backward : (Params -> F) -> Params -> Grads;   (* total_loss.backward() after zero_grad() *)
  adam_init : F -> AdamState;         (* torch.optim.Adam(parameters, lr=lr) *)
  adam_step : AdamState -> Params -> Grads -> AdamState * Params  (* optimizer.step() *)
}.

(* ================================================================= *)
(** ** class ECCVImage *)

Record ECCVImage (F : Type) : Type := {
  original_bw : ndarray F;
  luminance_256 : Map2 F;
  luminance_64 : Map2 F;
  proba_distrib : Tensor3 F;               (* bins x 64 x 64 *)
  proba_chrom_norm : list (Tensor3 F);     (* 2 x bins x 64 x 64 *)
  proba_chrom_unnorm : list (Tensor3 F);
  chrom_mean_unnorm : Tensor3 F;           (* 2 x 64 x 64 *)
  lab_mean_64 : Tensor3 F;                 (* 3 x 64 x 64 *)
  rgb_mean : Tensor3 F;
  output_upsampled : Tensor3 F             (* 3 x 256 x 256 *)
}.

Section ECCV.
Context {F : Type} `{Scalar F} `{Externals F}.

(** [torch.einsum("abcd,bn->nbcd", proba, coefs)]:
    [r[n][b][c][d] = proba[b][c][d] * coefs[b][n]]. *)
Definition einsum_abcd_bn_nbcd (proba : Tensor3 F) (coefs : list (F * F))
  : list (Tensor3 F) :=
  map (fun column : F * F -> F =>
         zip_with (fun plane row => map2d (fun p => fmul p (column row)) plane)
                  proba coefs)
      [fst; snd].

(** [COEFS[bin, c]] *)
Definition coef_at (coefs : list (F * F)) (bin c : nat) : F :=
  nth c [fst; snd] fst (nth bin coefs (flit 0, flit 0)).

Definition process_eccv (bw : ndarray F) (lum256 lum64 : Map2 F) : ECCVImage F :=
  let proba := colorizer lum256 in
  let chrom_norm := einsum_abcd_bn_nbcd proba COEFS in
  let chrom_unnorm := map (map (map2d unnormalize_ab)) chrom_norm in
  let chrom_mean := map sum_axis0 chrom_unnorm in
  let lab64 := lum64 :: chrom_mean in
  {| original_bw := bw;
     luminance_256 := lum256;
     luminance_64 := lum64;
     proba_distrib := proba;
     proba_chrom_norm := chrom_norm;
     proba_chrom_unnorm := chrom_unnorm;
     chrom_mean_unnorm := chrom_mean;
     lab_mean_64 := lab64;
     rgb_mean := lab_to_rgb lab64;
     output_upsampled := assign 0 lum256 (upsample lab64) |}.

(** [ECCVImage.__init__] *)
Definition ECCVImage_init (black_image : ndarray F) : ECCVImage F :=
  let black_image_single := convert_to_single_channel black_image in
  let black_image_norm :=
    ndmap (fun x => fmul x (flit (100 # 255))) black_image_single in
  let lum256 :=
    map2d (fclip (flit 0) (flit 100)) (resize_image black_image_norm (256, 256)) in
  let lum64 :=
    map2d (fclip (flit 0) (flit 100)) (resize_image black_image_norm (64, 64)) in
  process_eccv black_image_norm lum256 lum64.
End ECCV.

(* ================================================================= *)
(** ** class LoriaImageColorization *)

Record Loria (F : Type) {P : Prior F} : Type := {
  eccv : ECCVImage F;         (* the fields inherited from ECCVImage *)
  ones : Tensor3 F;
  dip_params : Params;
  target_dip : Tensor3 F;
  out : Tensor3 F
}.

Arguments Loria F {P}.
Arguments eccv {F _} _.
Arguments ones {F _} _.
Arguments dip_params {F _} _.
Arguments target_dip {F _} _.
Arguments out {F _} _.

(** The two branches of the loop body of [optimize]. *)
Inductive StepKind : Type := GradientStep | ReprojectionStep.

(** The test [j < 800 or (j % 200 != 0)] of [optimize]. *)
Definition step_kind (j : nat) : StepKind :=
  if (j <? 800) || negb (j mod 200 =? 0) then GradientStep else ReprojectionStep.

Definition is_reprojection (k : StepKind) : bool :=
  match k with ReprojectionStep => true | GradientStep => false end.

Definition is_gradient (k : StepKind) : bool := negb (is_reprojection k).

(** The branch taken at every iteration of [for j in range(num_iter)]. *)
Definition schedule (num_iter : nat) : list StepKind :=
  map step_kind (seq 0 num_iter).

(** The iterations of [range(num_iter)] that take the [else] branch. *)
Definition reprojections (num_iter : nat) : list nat :=
  filter (fun j => is_reprojection (step_kind j)) (seq 0 num_iter).

Section LoriaImageColorization.
Context {F : Type} `{Scalar F} `{Externals F} `{Prior F}.

(** [0.5 * (COEFS + 1)] *)
Definition coefs_to_128 : list (F * F) :=
  map (fun ab => (fmul (flit (1 # 2)) (fadd (fst ab) (flit 1)),
                  fmul (flit (1 # 2)) (fadd (snd ab) (flit 1))))
      COEFS.

(** [torch.ones(1, 313, 64, 64)] *)
Definition ones_313 : Tensor3 F := repeat (full 64 64 (flit 1)) 313.

(** [x / 100] on a map *)
Definition div100 (m : Map2 F) : Map2 F := map2d (fun x => fdiv x (flit 100)) m.

Definition get_initialized_image (e : ECCVImage F) (ones : Tensor3 F) : Tensor3 F :=
  let coefs_a := broadcast_mul (map fst coefs_to_128) ones in
  let coefs_b := broadcast_mul (map snd coefs_to_128) ones in
  let ind_max := argmax_axis0 (proba_distrib e) in
  let chr_a := squeeze_rows (gather_axis0 coefs_a (unsqueeze_rows ind_max)) in
  let chr_b := squeeze_rows (gather_axis0 coefs_b (unsqueeze_rows ind_max)) in
  let initialized := repeat (full 64 64 (flit 1)) 3 in
  let initialized := assign 1 chr_a initialized in
  let initialized := assign 2 chr_b initialized in
  assign 0 (div100 (luminance_64 e)) initialized.

Definition projection_chrom (self : Loria F) (image : Tensor3 F) : Tensor3 F :=
  let coefs_a := broadcast_mul (map fst coefs_to_128) (ones self) in
  let coefs_b := broadcast_mul (map snd coefs_to_128) (ones self) in
  let ind_min :=
    argmin_axis0
      (zip_with (zip2d fadd)
         (map (fun plane => map2d fpow2 (zip2d fsub plane (nth 1 image []))) coefs_a)
         (map (fun plane => map2d fpow2 (zip2d fsub plane (nth 2 image []))) coefs_b)) in
  let projected_chrm_a := squeeze_rows (gather_axis0 coefs_a (unsqueeze_rows ind_min)) in
  let projected_chrm_b := squeeze_rows (gather_axis0 coefs_b (unsqueeze_rows ind_min)) in
  let projected := repeat (full 64 64 (flit 1)) 3 in
  let projected := assign 1 projected_chrm_a projected in
  let projected := assign 2 projected_chrm_b projected in
  assign 0 (div100 (luminance_64 (eccv self))) projected.

(** The notions in which the specification words the projection: the
    squared Euclidean distance of two (a, b) pairs, the (a, b) pair of an
    image at a pixel, the palette as the projection holds it (every entry
    of [coefs_to_128] times the entry 1 of [self.ones]), and the first bin
    at the least distance of a pair. *)
Definition sqdist (p q : F * F) : F :=
  fadd (fpow2 (fsub (fst p) (fst q))) (fpow2 (fsub (snd p) (snd q))).

Definition pixel_ab (image : Tensor3 F) (h w : nat) : F * F :=
  (at2 (flit 0) (nth 1 image []) h w, at2 (flit 0) (nth 2 image []) h w).

Definition palette_on_ones : list (F * F) :=
  map (fun c => (fmul (fst c) (flit 1), fmul (snd c) (flit 1))) coefs_to_128.

Definition nearest_bin (palette : list (F * F)) (px : F * F) : nat :=
  argmin (map (fun c => sqdist c px) palette).

(** Slices of a map: [m[1:, :]], [m[:-1, :]], [m[:, 1:]], [m[:, :-1]]. *)
Definition rows_from_1 (m : Map2 F) : Map2 F := tl m.
Definition rows_but_last (m : Map2 F) : Map2 F := removelast m.
Definition cols_from_1 (m : Map2 F) : Map2 F := map (@tl F) m.
Definition cols_but_last (m : Map2 F) : Map2 F := map (@removelast F) m.

(** The coupled total variation term [tv_c] of [loss_coupled_tv]. *)
Definition tv_c (lum : Map2 F) (ab : Tensor3 F) (gamma : F) : F :=
  let dl_h :=
    map2d (fmul gamma) (map2d fpow2 (zip2d fsub (cols_from_1 lum) (cols_but_last lum))) in
  let dl_w :=
    map2d (fmul gamma) (map2d fpow2 (zip2d fsub (rows_from_1 lum) (rows_but_last lum))) in
  let dab_h :=
    map (fun ch => map2d fpow2 (zip2d fsub (cols_from_1 ch) (cols_but_last ch))) ab in
  let dab_w :=
    map (fun ch => map2d fpow2 (zip2d fsub (rows_from_1 ch) (rows_but_last ch))) ab in
  let epsilon := flit (1 # 100000) in
  let s1 := map2d (fadd epsilon) (rows_but_last dl_h) in
  let s2 := zip2d fadd s1 (cols_but_last dl_w) in
  let s3 := map (fun ch => zip2d fadd s2 (rows_but_last ch)) dab_h in
  let s4 := zip_with (zip2d fadd) s3 (map cols_but_last dab_w) in
  fmul (flit (5 # 1000000)) (fsum (flatten3 (map (map2d fsqrt) s4))).

(** The coupled total variation in the words of the specification: for
    each of the chrominance channels and each pixel [(i, j)] of the common
    (cropped) shape, the square root of [epsilon] plus [gamma] times the
    squared horizontal and vertical differences of the luminance plus the
    squared horizontal and vertical differences of the channel; summed, and
    scaled by [5e-6]. *)
Definition coupled_tv_spec (lum : Map2 F) (ab : Tensor3 F) (gamma : F) : F :=
  fmul (flit (5 # 1000000))
  (fsum
     (flat_map
        (fun ch =>
           flat_map
             (fun i =>
                map (fun j =>
                       fsqrt
                         (fadd
                            (fadd
                               (fadd
                                  (fadd (flit (1 # 100000))
                                     (fmul gamma
                                        (fpow2 (fsub (at2 (flit 0) lum i (S j))
                                                     (at2 (flit 0) lum i j)))))
                                  (fmul gamma
                                     (fpow2 (fsub (at2 (flit 0) lum (S i) j)
                                                  (at2 (flit 0) lum i j)))))
                               (fpow2 (fsub (at2 (flit 0) ch i (S j))
                                            (at2 (flit 0) ch i j))))
                            (fpow2 (fsub (at2 (flit 0) ch (S i) j)
                                         (at2 (flit 0) ch i j)))))
                    (seq 0 (width lum - 1)))
             (seq 0 (height lum - 1)))
        ab)).

Definition loss_coupled_tv (self : Loria F) (out : Tensor3 F) (gamma : F) : F :=
  let lum := div100 (luminance_256 (eccv self)) in
  let ab := [nth 1 out []; nth 2 out []] in
  let l2 := mse_loss (flatten3 (downsampler out)) (flatten3 (target_dip self)) in
  let loss_lum :=
    mse_loss (flatten2 (nth 0 out [])) (flatten2 (div100 (luminance_256 (eccv self)))) in
  fadd (fadd l2 loss_lum) (tv_c lum ab gamma).

Definition with_out (self : Loria F) (o : Tensor3 F) : Loria F :=
  {| eccv := eccv self; ones := ones self; dip_params := dip_params self;
     target_dip := target_dip self; out := o |}.

Definition with_params (self : Loria F) (p : Params) : Loria F :=
  {| eccv := eccv self; ones := ones self; dip_params := p;
     target_dip := target_dip self; out := out self |}.

Definition with_target (self : Loria F) (t : Tensor3 F) : Loria F :=
  {| eccv := eccv self; ones := ones self; dip_params := dip_params self;
     target_dip := t; out := out self |}.

(** [closure]: stores the network output and back-propagates the loss;
    the gradient is that of the loss as a function of the weights. *)
Definition closure (self : Loria F) (num_iter_active : nat) : Loria F * Grads * F :=
  let self' := with_out self (dip_net (dip_params self)) in
  let total_loss := loss_coupled_tv self' (out self') (flit 100) in
  let grads :=
    backward (fun p => loss_coupled_tv self' (dip_net p) (flit 100)) (dip_params self) in
  (self', grads, total_loss).

(** The [if] branch: [zero_grad(); closure(j); optimizer.step()]. *)
Definition gradient_step (s : AdamState * Loria F) (j : nat) : AdamState * Loria F :=
  let '(self', grads, _) := closure (snd s) j in
  let '(optimizer', params') := adam_step (fst s) (dip_params self') grads in
  (optimizer', with_params self' params').

(** The [else] branch. *)
Definition reprojection_step (s : AdamState * Loria F) : AdamState * Loria F :=
  let self := snd s in
  let new_target := projection_chrom self (downsampler (out self)) in
  let new_target := assign 0 (div100 (luminance_64 (eccv self))) new_target in
  (fst s, with_target self new_target).

(** One iteration of the loop of [optimize]. *)
Definition iteration (s : AdamState * Loria F) (j : nat) : AdamState * Loria F :=
  match step_kind j with
  | GradientStep => gradient_step s j
  | ReprojectionStep => reprojection_step s
  end.

(** The loop [for j in range(num_iter)], from a given optimizer state. *)
Definition optimize_loop (num_iter : nat) (s : AdamState * Loria F)
  : AdamState * Loria F :=
  fold_left iteration (seq 0 num_iter) s.

Definition optimize (self : Loria F) (lr : F) (num_iter : nat) : Loria F :=
  snd (optimize_loop num_iter (adam_init lr, self)).

(** [LoriaImageColorization.__init__]; [net0] stands for the weights
    [get_net] draws, and [torch.zeros(0)] is the tensor with no entry. *)
Definition Loria_init (black_image : ndarray F) (net0 : Params) : Loria F :=
  let e := ECCVImage_init black_image in
  {| eccv := e; ones := ones_313; dip_params := net0;
     target_dip := get_initialized_image e ones_313; out := [] |}.
(** An image whose channel 0 is [luminance_64 / 100] and whose (a, b) pair
    at every pixel is the entry of [coefs_to_128] that [idx] names there. *)
Definition palette_image (self : Loria F) (idx : nat -> nat -> nat) : Tensor3 F :=
  [ div100 (luminance_64 (eccv self));
    tabulate2 64 64 (fun h w => fst (nth (idx h w) coefs_to_128 (flit 0, flit 0)));
    tabulate2 64 64 (fun h w => snd (nth (idx h w) coefs_to_128 (flit 0, flit 0))) ].

Definition on_palette (self : Loria F) (t : Tensor3 F) : Prop :=
  exists idx : nat -> nat -> nat,
    (forall h w, h < 64 -> w < 64 -> idx h w < 313) /\ t = palette_image self idx.
End LoriaImageColorization.

(* ================================================================= *)
(** ** An executable instance: exact rationals and stand-in collaborators *)

(** Exact rational arithmetic. *)
#[export] Instance Qc_scalar : Scalar Qc := {|
  flit := Q2Qc;
  fadd := Qcplus;
  fsub := Qcminus;
  fmul := Qcmult;
  fdiv := Qcdiv;
  fltb := fun x y => match Qccompare x y with Lt => true | _ => false end
|}.

(** A rational lower approximation of the square root. *)
Definition Qc_sqrt (x : Qc) : Qc :=
  Q2Qc (Z.sqrt (Qnum x * Zpos (Qden x)) # Qden x).

(** A palette of 313 bins on the diagonal of [[-1, 1]^2]. *)
Definition example_COEFS : list (Qc * Qc) :=
  tabulate 313 (fun k => (Q2Qc ((Z.of_nat k - 156) # 156),
                          Q2Qc ((156 - Z.of_nat k) # 156))).

(** The first entry of an array, in storage order. *)
Fixpoint first_item {A} (d : A) (t : ndarray A) : A :=
  match t with
  | Item x => x
  | Axis l => match l with [] => d | x :: _ => first_item d x end
  end.

(** Stand-ins: a predictor that answers the uniform distribution, the
    scaling by 110 of eccv16 for [unnormalize_ab], constant resizing,
    nearest-neighbour up- and down-sampling by 4. *)
#[export] Instance example_externals : Externals Qc := {|
  COEFS := example_COEFS;
  colorizer := fun _ => repeat (full 64 64 (Q2Qc (1 # 313))) 313;
  unnormalize_ab := fun x => Qcmult x (Q2Qc 110);
  resize_image := fun img size => full (fst size) (snd size) (first_item (Q2Qc 0) img);
  upsample := map (fun plane =>
                     tabulate2 256 256 (fun i j => at2 (Q2Qc 0) plane (i / 4) (j / 4)));
  lab_to_rgb := fun t => t;
  downsampler := map (fun plane =>
                        tabulate2 64 64 (fun i j => at2 (Q2Qc 0) plane (4 * i) (4 * j)));
  fsqrt := Qc_sqrt
|}.

(** A one-weight network painting every entry with its weight, a forward
    difference for the gradient and plain gradient descent for Adam. *)
#[export] Instance example_prior : Prior Qc := {|
  Params := Qc;
  Grads := Qc;
  AdamState := Qc;
  dip_net := fun p => repeat (full 256 256 p) 3;
  backward := fun loss p => Qcminus (loss (Qcplus p (Q2Qc 1))) (loss p);
  adam_init := fun lr => lr;
  adam_step := fun lr p g => (lr, Qcminus p (Qcmult lr g))
|}.

(** A 2 x 2 grey image, and a 3 x 2 one. *)
Definition example_image : ndarray Qc :=
  Axis [Axis [Item (Q2Qc 128); Item (Q2Qc 64)];
        Axis [Item (Q2Qc 32); Item (Q2Qc 255)]].

Definition example_image_3x2 : ndarray Z :=
  Axis [Axis [Item 1%Z; Item 2%Z];
        Axis [Item 3%Z; Item 4%Z];
        Axis [Item 5%Z; Item 6%Z]].

Definition example_image_3d : ndarray Z :=
  Axis [Axis [Axis [Item 1%Z; Item 2%Z; Item 3%Z]; Axis [Item 4%Z; Item 5%Z; Item 6%Z]]].

(** A constant 3 x 64 x 64 image. *)
Definition example_lab_64 : Tensor3 Qc := repeat (full 64 64 (Q2Qc (1 # 2))) 3.

Definition example_loria : Loria Qc := Loria_init example_image (Q2Qc (1 # 2)).

(** The state in which [optimize] enters its loop with [lr = 0.01]. *)
Definition example_state : AdamState * Loria Qc :=
  (adam_init (Q2Qc (1 # 100)), example_loria).

(* ================================================================= *)
(** ** A second instance: the rounding of single-precision floats *)

(** The integer nearest to [q], the even one of two equally near. *)
Definition round_half_even (q : Q) : Z :=
  let f := Qfloor q in
  match Qcompare (q - inject_Z f)%Q (1 # 2)%Q with
  | Lt => f
  | Gt => (f + 1)%Z
  | Eq => if Z.even f then f else (f + 1)%Z
  end.

(** The exponent [e] with [2 ^ e <= |q| < 2 ^ (e + 1)], for [q] not zero. *)
Definition binade (q : Q) : Z :=
  let n := Z.abs (Qnum q) in
  let d := Zpos (Qden q) in
  let e0 := (Z.log2 n - Z.log2 d)%Z in
  let below :=
    if (0 <=? e0)%Z then (n <? d * 2 ^ e0)%Z else (n * 2 ^ (- e0) <? d)%Z in
  if below then (e0 - 1)%Z else e0.

Definition pow2Q (e : Z) : Q :=
  if (0 <=? e)%Z then inject_Z (2 ^ e) else (/ inject_Z (2 ^ (- e)))%Q.

(** Rounding to the nearest binary32 number, ties to even: 24 significant
    bits, least exponent -126 (magnitudes stay far below the overflow
    threshold in this program). *)
Definition round32 (q : Q) : Q :=
  if Qeq_bool q 0 then 0%Q
  else
    let ulp := pow2Q (Z.max (binade q) (-126) - 23) in
    (inject_Z (round_half_even (q / ulp)%Q) * ulp)%Q.

(** torch [float] arithmetic on finite values: every operation is the
    exact one followed by rounding; comparison is exact. *)
Definition f32_scalar : Scalar Qc := {|
  flit := fun q => Q2Qc (round32 q);
  fadd := fun x y => Q2Qc (round32 (x + y)%Q);
  fsub := fun x y => Q2Qc (round32 (x - y)%Q);
  fmul := fun x y => Q2Qc (round32 (x * y)%Q);
  fdiv := fun x y => Q2Qc (round32 (x / y)%Q);
  fltb := fun x y => match Qccompare x y with Lt => true | _ => false end
|}.

(** The palette of the first instance, stored in single precision. *)
Definition f32_COEFS : list (Qc * Qc) :=
  map (fun c : Qc * Qc => (Q2Qc (round32 (fst c)), Q2Qc (round32 (snd c)))) example_COEFS.

Definition f32_externals : Externals Qc := {|
  COEFS := f32_COEFS;
  colorizer := @colorizer Qc example_externals;
  unnormalize_ab := fun x => @fmul Qc f32_scalar x (Q2Qc 110);
  resize_image := @resize_image Qc example_externals;
  upsample := @upsample Qc example_externals;
  lab_to_rgb := @lab_to_rgb Qc example_externals;
  downsampler := @downsampler Qc example_externals;
  fsqrt := fun x => Q2Qc (round32 (Qc_sqrt x))
|}.

(** A 3 x 64 x 64 image of single-precision entries, the same at every
    pixel: a = 1199813 / 2^21, b = 1945915 / 2^21. *)
Definition f32_image : Tensor3 Qc :=
  [ full 64 64 (Q2Qc (1 # 2));
    full 64 64 (Q2Qc (1199813 # 2097152));
    full 64 64 (Q2Qc (1945915 # 2097152)) ].

Definition f32_loria : Loria Qc :=
  @Loria_init Qc f32_scalar f32_externals example_prior example_image (Q2Qc (1 # 2)).

(* ================================================================= *)
(** * Properties *)

(** ** Lists and maps given by their entries *)

Section TabulateFacts.
Context {A B C : Type}.

Lemma tabulate_length (n : nat) (f : nat -> A) : length (tabulate n f) = n.
Proof. unfold tabulate. now rewrite length_map, length_seq. Qed.

Lemma tabulate_nth (n : nat) (f : nat -> A) (i : nat) (d : A) :
  i < n -> nth i (tabulate n f) d = f i.
Proof.
  intros Hi. unfold tabulate.
  rewrite (nth_indep _ d (f 0)) by now rewrite length_map, length_seq.
  rewrite map_nth, seq_nth by assumption. reflexivity.
Qed.

Lemma tabulate_ext (n : nat) (f g : nat -> A) :
  (forall i, i < n -> f i = g i) -> tabulate n f = tabulate n g.
Proof.
  intros E. unfold tabulate. apply map_ext_in.
  intros i Hi. apply in_seq in Hi. apply E. lia.
Qed.

Lemma tabulate_of_list (l : list A) (d : A) :
  l = tabulate (length l) (fun i => nth i l d).
Proof.
  apply (nth_ext _ _ d d).
  - now rewrite tabulate_length.
  - intros i Hi. now rewrite tabulate_nth.
Qed.

Lemma map_tabulate (f : A -> B) (n : nat) (g : nat -> A) :
  map f (tabulate n g) = tabulate n (fun i => f (g i)).
Proof. unfold tabulate. apply map_map. Qed.

Lemma repeat_tabulate (x : A) (n : nat) : repeat x n = tabulate n (fun _ => x).
Proof.
  unfold tabulate. generalize 0. induction n as [|n IH]; intros s; simpl.
  - reflexivity.
  - now rewrite (IH (S s)).
Qed.

Lemma zip_with_map_seq (f : A -> B -> C) (g : nat -> A) (h : nat -> B) (s n : nat) :
  zip_with f (map g (seq s n)) (map h (seq s n))
  = map (fun i => f (g i) (h i)) (seq s n).
Proof.
  revert s. induction n as [|n IH]; intros s; simpl.
  - reflexivity.
  - now rewrite IH.
Qed.

Lemma zip_with_tabulate (f : A -> B -> C) (n : nat) (g : nat -> A) (h : nat -> B) :
  zip_with f (tabulate n g) (tabulate n h) = tabulate n (fun i => f (g i) (h i)).
Proof. apply zip_with_map_seq. Qed.

Lemma imap_from_map_seq (f : nat -> A -> B) (g : nat -> A) (s n : nat) :
  imap_from s f (map g (seq s n)) = map (fun i => f i (g i)) (seq s n).
Proof.
  revert s. induction n as [|n IH]; intros s; simpl.
  - reflexivity.
  - now rewrite IH.
Qed.

Lemma imap_tabulate (f : nat -> A -> B) (n : nat) (g : nat -> A) :
  imap f (tabulate n g) = tabulate n (fun i => f i (g i)).
Proof. apply imap_from_map_seq. Qed.

Lemma tl_tabulate (n : nat) (g : nat -> A) :
  tl (tabulate n g) = tabulate (n - 1) (fun i => g (S i)).
Proof.
  unfold tabulate. destruct n as [|n]; simpl.
  - reflexivity.
  - rewrite Nat.sub_0_r, <- seq_shift, map_map. reflexivity.
Qed.

Lemma removelast_tabulate (n : nat) (g : nat -> A) :
  removelast (tabulate n g) = tabulate (n - 1) g.
Proof.
  unfold tabulate. destruct n as [|n].
  - reflexivity.
  - rewrite seq_S, map_app. simpl map at 2.
    rewrite removelast_last. simpl. now rewrite Nat.sub_0_r.
Qed.
End TabulateFacts.

Section Tabulate2Facts.
Context {A B C : Type}.

Lemma at2_tabulate2 (h w : nat) (f : nat -> nat -> A) (i j : nat) (d : A) :
  i < h -> j < w -> at2 d (tabulate2 h w f) i j = f i j.
Proof.
  intros Hi Hj. unfold at2, tabulate2.
  rewrite tabulate_nth by assumption. now apply tabulate_nth.
Qed.

Lemma tabulate2_ext (h w : nat) (f g : nat -> nat -> A) :
  (forall i j, i < h -> j < w -> f i j = g i j) -> tabulate2 h w f = tabulate2 h w g.
Proof.
  intros E. unfold tabulate2. apply tabulate_ext. intros i Hi.
  apply tabulate_ext. intros j Hj. now apply E.
Qed.

Lemma tabulate2_is_map (h w : nat) (f : nat -> nat -> A) :
  is_map h w (tabulate2 h w f).
Proof.
  split.
  - apply tabulate_length.
  - apply Forall_forall. intros row Hrow. unfold tabulate2, tabulate in Hrow.
    apply in_map_iff in Hrow. destruct Hrow as [i [<- _]]. apply tabulate_length.
Qed.

Lemma tabulate2_of_map (h w : nat) (m : list (list A)) (d : A) :
  is_map h w m -> m = tabulate2 h w (at2 d m).
Proof.
  intros [Hh Hw]. unfold tabulate2, at2.
  rewrite (tabulate_of_list m []) at 1. rewrite Hh.
  apply tabulate_ext. intros i Hi.
  assert (Hlen : length (nth i m []) = w).
  { rewrite Forall_forall in Hw. apply Hw, nth_In. lia. }
  rewrite (tabulate_of_list (nth i m []) d) at 1. now rewrite Hlen.
Qed.

Lemma map2d_tabulate2 (f : A -> B) (h w : nat) (g : nat -> nat -> A) :
  map2d f (tabulate2 h w g) = tabulate2 h w (fun i j => f (g i j)).
Proof.
  unfold map2d, tabulate2. rewrite map_tabulate.
  apply tabulate_ext. intros i _. apply map_tabulate.
Qed.

Lemma zip2d_tabulate2 (f : A -> B -> C) (h w : nat)
      (g1 : nat -> nat -> A) (g2 : nat -> nat -> B) :
  zip2d f (tabulate2 h w g1) (tabulate2 h w g2)
  = tabulate2 h w (fun i j => f (g1 i j) (g2 i j)).
Proof.
  unfold zip2d, tabulate2. rewrite zip_with_tabulate.
  apply tabulate_ext. intros i _. apply zip_with_tabulate.
Qed.

Lemma full_tabulate2 (h w : nat) (v : A) : full h w v = tabulate2 h w (fun _ _ => v).
Proof.
  unfold full, tabulate2. rewrite repeat_tabulate.
  apply tabulate_ext. intros i _. apply repeat_tabulate.
Qed.

Lemma height_tabulate2 (h w : nat) (f : nat -> nat -> A) : height (tabulate2 h w f) = h.
Proof. apply tabulate_length. Qed.

Lemma width_tabulate2 (h w : nat) (f : nat -> nat -> A) :
  0 < h -> width (tabulate2 h w f) = w.
Proof.
  intros Hh. unfold width, tabulate2. destruct h as [|h]; [lia|].
  unfold tabulate at 1. simpl. apply tabulate_length.
Qed.
End Tabulate2Facts.

(* ================================================================= *)
(** ** Single-channel selection *)

(** C9, as amended: an input with exactly three dimensions and an axis of
    extent 3 is replaced by its slice 0 along the first such axis; an input
    that does not have three dimensions, or has no axis of extent 3, is
    returned unchanged. *)
Theorem convert_to_single_channel_spec {A : Type} (image : ndarray A) :
  (forall d, ndim image = 3 -> d < 3 ->
             nth d (shape image) 0 = 3 ->
             (forall d', d' < d -> nth d' (shape image) 0 <> 3) ->
             convert_to_single_channel image = select d 0 image)
  /\ (ndim image <> 3 -> convert_to_single_channel image = image)
  /\ ((forall d, d < 3 -> nth d (shape image) 0 <> 3) ->
      convert_to_single_channel image = image).
Proof.
  unfold convert_to_single_channel. repeat split.
  - intros d Hn Hd Hext Hfirst. rewrite Hn. simpl.
    destruct d as [|[|[|d]]]; try lia.
    + now rewrite Hext.
    + destruct (Nat.eqb_spec (nth 0 (shape image) 0) 3) as [E|_].
      * exfalso. apply (Hfirst 0); [lia | exact E].
      * now rewrite Hext.
    + destruct (Nat.eqb_spec (nth 0 (shape image) 0) 3) as [E|_].
      * exfalso. apply (Hfirst 0); [lia | exact E].
      * destruct (Nat.eqb_spec (nth 1 (shape image) 0) 3) as [E|_].
        -- exfalso. apply (Hfirst 1); [lia | exact E].
        -- now rewrite Hext.
  - intros Hn. apply Nat.eqb_neq in Hn. now rewrite Hn.
  - intros Hnone. destruct (ndim image =? 3); [|reflexivity]. simpl.
    destruct (Nat.eqb_spec (nth 0 (shape image) 0) 3) as [E|_];
      [exfalso; apply (Hnone 0); [lia | exact E]|].
    destruct (Nat.eqb_spec (nth 1 (shape image) 0) 3) as [E|_];
      [exfalso; apply (Hnone 1); [lia | exact E]|].
    destruct (Nat.eqb_spec (nth 2 (shape image) 0) 3) as [E|_];
      [exfalso; apply (Hnone 2); [lia | exact E]|].
    reflexivity.
Qed.

(** A 1 x 2 x 3 array is cut along its last axis. *)
Lemma convert_to_single_channel_spec_witness :
  convert_to_single_channel example_image_3d = select 2 0 example_image_3d.
Proof.
  apply (proj1 (convert_to_single_channel_spec example_image_3d) 2).
  - reflexivity.
  - lia.
  - reflexivity.
  - intros d' Hd'. destruct d' as [|[|d']]; simpl; lia.
Defined.

(** C9, as stated, fails on a two-dimensional 3 x 2 image: its axis 0 has
    exactly 3 entries, yet the image is returned whole. *)
Lemma convert_to_single_channel_2d_counterexample :
  ~ (forall (image : ndarray Z) (d : nat),
        nth_error (shape image) d = Some 3 ->
        convert_to_single_channel image = select d 0 image).
Proof.
  intros Hclaim. specialize (Hclaim example_image_3x2 0 eq_refl).
  vm_compute in Hclaim. discriminate Hclaim.
Qed.

(* ================================================================= *)
(** ** The schedule of [optimize] *)

Lemma step_kind_gradient (j : nat) :
  j < 800 \/ j mod 200 <> 0 -> step_kind j = GradientStep.
Proof.
  intros Hj. unfold step_kind.
  destruct (Nat.ltb_spec j 800) as [_|Hge]; [reflexivity|].
  destruct (Nat.eqb_spec (j mod 200) 0) as [E|_]; [|reflexivity].
  destruct Hj; [lia | contradiction].
Qed.

Lemma step_kind_reprojection (j : nat) :
  step_kind j = ReprojectionStep <-> 800 <= j /\ j mod 200 = 0.
Proof.
  unfold step_kind.
  destruct (Nat.ltb_spec j 800) as [Hlt|Hge];
    destruct (Nat.eqb_spec (j mod 200) 0) as [E|NE]; cbn [orb negb].
  - split; [discriminate | lia].
  - split; [discriminate | lia].
  - split; [now split | reflexivity].
  - split; [discriminate | intros [_ E]; contradiction].
Qed.

Section Optimize.
Context {F : Type} {SF : Scalar F} {EX : Externals F} {PR : Prior F}.

Lemma optimize_loop_S (n : nat) (s : AdamState * Loria F) :
  optimize_loop (S n) s = iteration (optimize_loop n s) n.
Proof. unfold optimize_loop. now rewrite seq_S, fold_left_app. Qed.

Lemma fold_iteration_gradient (l : list nat) (s : AdamState * Loria F) :
  forallb (fun j => is_gradient (step_kind j)) l = true ->
  fold_left iteration l s = fold_left gradient_step l s.
Proof.
  revert s. induction l as [|j l IH]; intros s Hl; simpl in *.
  - reflexivity.
  - apply andb_true_iff in Hl. destruct Hl as [Hj Hl].
    rewrite <- (IH _ Hl). f_equal. unfold iteration.
    destruct (step_kind j); [reflexivity | discriminate Hj].
Qed.

Lemma optimize_loop_app (a b : nat) (s : AdamState * Loria F) :
  optimize_loop (a + b) s = fold_left iteration (seq a b) (optimize_loop a s).
Proof. unfold optimize_loop. now rewrite seq_app, fold_left_app. Qed.

Lemma optimize_loop_reprojection (a : nat) (s : AdamState * Loria F) :
  step_kind a = ReprojectionStep ->
  optimize_loop (S a) s = reprojection_step (optimize_loop a s).
Proof. intros Ha. rewrite optimize_loop_S. unfold iteration. now rewrite Ha. Qed.

Lemma optimize_loop_reprojection_then_gradient (a b : nat) (s : AdamState * Loria F) :
  step_kind a = ReprojectionStep ->
  forallb (fun j => is_gradient (step_kind j)) (seq (S a) b) = true ->
  optimize_loop (S a + b) s
  = fold_left gradient_step (seq (S a) b) (reprojection_step (optimize_loop a s)).
Proof.
  intros Ha Hb. rewrite optimize_loop_app, (optimize_loop_reprojection _ _ Ha).
  apply fold_iteration_gradient, Hb.
Qed.

(** C1, as amended: with [num_iter = 1000] the loop is 800 gradient steps,
    the re-projection of iteration 800 and 199 gradient steps, so 999
    gradient steps in all; with [num_iter = 1201] the re-projections are
    those of iterations 800, 1000 and 1200, the last iteration of
    [range(1201)]; the set is [{800, 1000}] for [num_iter = 1200]. *)
Theorem optimize_schedule :
  reprojections 1000 = [800]
  /\ length (filter is_gradient (schedule 1000)) = 999
  /\ reprojections 1201 = [800; 1000; 1200]
  /\ reprojections 1200 = [800; 1000]
  /\ (forall s : AdamState * Loria F,
         optimize_loop 1000 s
         = fold_left gradient_step (seq 801 199)
             (reprojection_step (fold_left gradient_step (seq 0 800) s)))
  /\ (forall s : AdamState * Loria F,
         optimize_loop 1201 s
         = reprojection_step
             (fold_left gradient_step (seq 1001 199)
                (reprojection_step
                   (fold_left gradient_step (seq 801 199)
                      (reprojection_step (fold_left gradient_step (seq 0 800) s)))))).
Proof.
  split; [vm_compute; reflexivity|].
  split; [vm_compute; reflexivity|].
  split; [vm_compute; reflexivity|].
  split; [vm_compute; reflexivity|].
  assert (G0 : forallb (fun j => is_gradient (step_kind j)) (seq 0 800) = true)
    by (vm_compute; reflexivity).
  assert (G1 : forallb (fun j => is_gradient (step_kind j)) (seq 801 199) = true)
    by (vm_compute; reflexivity).
  assert (G2 : forallb (fun j => is_gradient (step_kind j)) (seq 1001 199) = true)
    by (vm_compute; reflexivity).
  assert (R800 : step_kind 800 = ReprojectionStep) by (vm_compute; reflexivity).
  assert (R1000 : step_kind 1000 = ReprojectionStep) by (vm_compute; reflexivity).
  assert (R1200 : step_kind 1200 = ReprojectionStep) by (vm_compute; reflexivity).
  assert (L1000 : forall s : AdamState * Loria F,
             optimize_loop 1000 s
             = fold_left gradient_step (seq 801 199)
                 (reprojection_step (fold_left gradient_step (seq 0 800) s))).
  { intros s.
    transitivity (fold_left gradient_step (seq 801 199)
                    (reprojection_step (optimize_loop 800 s))).
    - exact (optimize_loop_reprojection_then_gradient 800 199 s R800 G1).
    - (apply f_equal; apply f_equal). exact (fold_iteration_gradient _ s G0). }
  split; [exact L1000|].
  intros s.
  transitivity (reprojection_step (optimize_loop 1200 s)).
  { exact (optimize_loop_reprojection 1200 s R1200). }
  apply f_equal.
  transitivity (fold_left gradient_step (seq 1001 199)
                  (reprojection_step (optimize_loop 1000 s))).
  { exact (optimize_loop_reprojection_then_gradient 1000 199 s R1000 G2). }
  (apply f_equal; apply f_equal). exact (L1000 s).
Qed.
End Optimize.

(** C1, as stated, fails for [num_iter = 1201]: iteration 1200 belongs to
    [range(1201)] and takes the re-projection branch. *)
Lemma reprojection_at_1200_counterexample :
  In 1200 (reprojections 1201) /\ reprojections 1201 <> [800; 1000].
Proof.
  split.
  - unfold reprojections. apply filter_In. split.
    + apply in_seq. lia.
    + vm_compute. reflexivity.
  - vm_compute. discriminate.
Qed.

(* ================================================================= *)
(** ** The two kinds of iteration *)

Lemma full_is_map {A : Type} (h w : nat) (v : A) : is_map h w (full h w v).
Proof. rewrite full_tabulate2. apply tabulate2_is_map. Qed.

Section Iteration.
Context {F : Type} {SF : Scalar F} {EX : Externals F} {PR : Prior F}.

(** C2: an iteration [j] with [j < 800] or [j % 200 != 0] runs the network,
    back-propagates the loss and makes one optimizer step on the weights,
    leaving the target as it was; any other iteration replaces the target
    by the palette projection of the downsampled stored output, channel 0
    set to [luminance_64 / 100], and touches neither the weights nor the
    optimizer. *)
Theorem iteration_effect (s : AdamState * Loria F) (j : nat) :
  (j < 800 \/ j mod 200 <> 0 ->
     let self := snd s in
     let output := dip_net (dip_params self) in
     let grads :=
       backward (fun p => loss_coupled_tv (with_out self output) (dip_net p) (flit 100))
                (dip_params self) in
     fst (iteration s j) = fst (adam_step (fst s) (dip_params self) grads)
     /\ dip_params (snd (iteration s j))
        = snd (adam_step (fst s) (dip_params self) grads)
     /\ out (snd (iteration s j)) = output
     /\ target_dip (snd (iteration s j)) = target_dip self)
  /\ (800 <= j /\ j mod 200 = 0 ->
     let self := snd s in
     target_dip (snd (iteration s j))
     = assign 0 (div100 (luminance_64 (eccv self)))
         (projection_chrom self (downsampler (out self)))
     /\ dip_params (snd (iteration s j)) = dip_params self
     /\ fst (iteration s j) = fst s
     /\ out (snd (iteration s j)) = out self).
Proof.
  split.
  - intros Hj. unfold iteration. rewrite (step_kind_gradient Hj).
    unfold gradient_step, closure. cbv zeta.
    destruct (adam_step _ _ _) as [optimizer' params'].
    repeat split.
  - intros Hj. unfold iteration.
    rewrite (proj2 (step_kind_reprojection j) Hj).
    unfold reprojection_step. repeat split.
Qed.

Lemma gradient_step_out (s : AdamState * Loria F) (j : nat) :
  out (snd (gradient_step s j)) = dip_net (dip_params (snd s)).
Proof.
  unfold gradient_step, closure. cbv zeta.
  destruct (adam_step _ _ _) as [optimizer' params']. reflexivity.
Qed.

Lemma gradient_step_target (s : AdamState * Loria F) (j : nat) :
  target_dip (snd (gradient_step s j)) = target_dip (snd s).
Proof.
  unfold gradient_step, closure. cbv zeta.
  destruct (adam_step _ _ _) as [optimizer' params']. reflexivity.
Qed.

(** Once the loop has run an iteration, the stored output is an output of
    the network. *)
Lemma optimize_loop_out (n : nat) (s0 : AdamState * Loria F) :
  0 < n -> exists p, out (snd (optimize_loop n s0)) = dip_net p.
Proof.
  induction n as [|n IH]; [lia|]. intros _.
  rewrite optimize_loop_S. unfold iteration.
  destruct (step_kind n) eqn:K.
  - eexists. apply gradient_step_out.
  - apply step_kind_reprojection in K. destruct K as [K _].
    destruct IH as [p Hp]; [lia|].
    exists p. exact Hp.
Qed.

Lemma optimize_loop_target (n : nat) (s0 : AdamState * Loria F) :
  n <= 800 -> target_dip (snd (optimize_loop n s0)) = target_dip (snd s0).
Proof.
  induction n as [|n IH]; intros Hn; [reflexivity|].
  rewrite optimize_loop_S. unfold iteration.
  rewrite step_kind_gradient by lia.
  rewrite gradient_step_target. apply IH. lia.
Qed.

(** C10: an iteration [j] that takes the re-projection branch has
    [j >= 800], the iterations 0..799 before it are gradient steps, and the
    stored output it downsamples is an output of the network (a
    3 x 256 x 256 tensor when the network produces such), not the empty
    tensor of [__init__]; and for [num_iter <= 800] all iterations are
    gradient steps and the target keeps its initial value. *)
Theorem reprojection_sees_network_output (s0 : AdamState * Loria F) (j : nat) :
  (forall p, is_tensor 3 256 256 (dip_net p)) ->
  step_kind j = ReprojectionStep ->
  800 <= j
  /\ (forall i, i < 800 -> step_kind i = GradientStep)
  /\ (exists p, out (snd (optimize_loop j s0)) = dip_net p)
  /\ is_tensor 3 256 256 (out (snd (optimize_loop j s0)))
  /\ out (snd (optimize_loop j s0)) <> []
  /\ (forall num_iter, num_iter <= 800 ->
        Forall (fun k => k = GradientStep) (schedule num_iter)
        /\ target_dip (snd (optimize_loop num_iter s0)) = target_dip (snd s0)).
Proof.
  intros Hnet Hj. apply step_kind_reprojection in Hj. destruct Hj as [Hj _].
  destruct (@optimize_loop_out j s0) as [p Hp]; [lia|].
  split; [exact Hj|].
  split; [intros i Hi; apply step_kind_gradient; now left|].
  split; [now exists p|].
  split; [rewrite Hp; apply Hnet|].
  split.
  - rewrite Hp. intros E. destruct (Hnet p) as [Hlen _].
    rewrite E in Hlen. discriminate Hlen.
  - intros num_iter Hn. split.
    + unfold schedule. apply Forall_forall. intros k Hk.
      apply in_map_iff in Hk. destruct Hk as [i [<- Hi]].
      apply in_seq in Hi. apply step_kind_gradient. left. lia.
    + now apply optimize_loop_target.
Qed.
End Iteration.

Lemma iteration_effect_witness :
  target_dip (snd (iteration example_state 0)) = target_dip example_loria
  /\ dip_params (snd (iteration example_state 800))
     = dip_params example_loria.
Proof.
  split.
  - assert (H0 : 0 < 800 \/ 0 mod 200 <> 0) by (left; lia).
    destruct (proj1 (iteration_effect example_state 0) H0)
      as (_ & _ & _ & Ht).
    exact Ht.
  - assert (H800 : 800 <= 800 /\ 800 mod 200 = 0) by (split; [lia | reflexivity]).
    destruct (proj2 (iteration_effect example_state 800) H800)
      as (_ & Hp & _).
    exact Hp.
Defined.

Lemma example_dip_net_shape (p : Qc) : is_tensor 3 256 256 (dip_net p).
Proof.
  unfold dip_net, example_prior.
  split; [apply repeat_length|].
  apply Forall_forall. intros plane Hplane.
  apply repeat_spec in Hplane. subst plane. apply full_is_map.
Qed.

Lemma reprojection_sees_network_output_witness :
  out (snd (optimize_loop 800 example_state)) <> [].
Proof.
  assert (K : step_kind 800 = ReprojectionStep) by reflexivity.
  destruct (@reprojection_sees_network_output _ _ _ _
              example_state 800 example_dip_net_shape K)
    as (_ & _ & _ & _ & Hne & _).
  exact Hne.
Defined.

(* ================================================================= *)
(** ** Preprocessing *)

Section Preprocessing.
Context {F : Type} {SF : Scalar F} {EX : Externals F}.

(** C5: for every input image, channel 0 of [output_upsampled] is the
    high-resolution luminance, that is, the single-channel image rescaled
    by 100/255, resized to 256 x 256 and clipped to [[0, 100]], which is
    what [luminance_256] holds; the interpolated luminance that [upsample]
    produced from the 64 x 64 estimate is dropped, and only the channels
    after it are kept from [upsample] (provided [upsample] keeps the
    channels of its argument). *)
Theorem output_upsampled_luminance (black_image : ndarray F) :
  (forall t, length (upsample t) = length t) ->
  let e := ECCVImage_init black_image in
  let high_resolution :=
    map2d (fclip (flit 0) (flit 100))
          (resize_image
             (ndmap (fun x => fmul x (flit (100 # 255)))
                    (convert_to_single_channel black_image))
             (256, 256)) in
  luminance_256 e = high_resolution
  /\ nth_error (output_upsampled e) 0 = Some high_resolution
  /\ output_upsampled e = high_resolution :: tl (upsample (lab_mean_64 e))
  /\ lab_mean_64 e = luminance_64 e :: chrom_mean_unnorm e.
Proof.
  intros Hup e high_resolution. unfold e, ECCVImage_init, process_eccv.
  cbn [output_upsampled luminance_256 luminance_64 lab_mean_64 chrom_mean_unnorm].
  fold high_resolution.
  set (u := upsample _).
  assert (Hlen : 0 < length u) by (unfold u; rewrite Hup; simpl; lia).
  destruct u as [|c rest]; [simpl in Hlen; lia|].
  repeat split.
Qed.
End Preprocessing.

Lemma output_upsampled_luminance_witness :
  nth_error (output_upsampled (ECCVImage_init example_image)) 0
  = Some (map2d (fclip (flit 0) (flit 100))
                (resize_image
                   (ndmap (fun x => fmul x (flit (100 # 255)))
                          (convert_to_single_channel example_image))
                   (256, 256))).
Proof.
  assert (Hup : forall t : Tensor3 Qc, length (upsample t) = length t)
    by (intros t; simpl; apply length_map).
  exact (proj1 (proj2 (@output_upsampled_luminance Qc Qc_scalar example_externals
                         example_image Hup))).
Defined.

(* ================================================================= *)
(** ** Stacks of planes given by their entries *)

Lemma hd_tabulate {A : Type} (n : nat) (g : nat -> A) (d : A) :
  0 < n -> hd d (tabulate n g) = g 0.
Proof. intros Hn. destruct n as [|n]; [lia | reflexivity]. Qed.

Lemma tensor_tabulate {A : Type} (c h w : nat) (t : list (list (list A))) (d : A) :
  is_tensor c h w t ->
  t = tabulate c (fun k => tabulate2 h w (at2 d (nth k t []))).
Proof.
  intros [Hc Hmaps]. rewrite (tabulate_of_list t []) at 1. rewrite Hc.
  apply tabulate_ext. intros k Hk. apply tabulate2_of_map.
  rewrite Forall_forall in Hmaps. apply Hmaps, nth_In. lia.
Qed.

Section Stacks.
Context {F : Type} {SF : Scalar F}.

Lemma pixel_column_tabulate (n H W : nat) (g : nat -> nat -> nat -> F) (h w : nat) :
  h < H -> w < W ->
  pixel_column (tabulate n (fun b => tabulate2 H W (g b))) h w
  = tabulate n (fun b => g b h w).
Proof.
  intros Hh Hw. unfold pixel_column. rewrite map_tabulate.
  apply tabulate_ext. intros b _. now apply at2_tabulate2.
Qed.

Lemma sum_axis0_tabulate (n H W : nat) (g : nat -> nat -> nat -> F) :
  0 < n -> 0 < H ->
  sum_axis0 (tabulate n (fun b => tabulate2 H W (g b)))
  = tabulate2 H W (fun h w => fsum (tabulate n (fun b => g b h w))).
Proof.
  intros Hn HH. unfold sum_axis0.
  rewrite hd_tabulate, height_tabulate2, width_tabulate2 by assumption.
  apply tabulate2_ext. intros h w Hh Hw. now rewrite pixel_column_tabulate.
Qed.
End Stacks.

(* ================================================================= *)
(** ** The expectation decode *)

Section Decoder.
Context {F : Type} {SF : Scalar F} {EX : Externals F}.

(** C8: for a distribution of shape 313 x 64 x 64 and a palette of 313
    entries, the mean chrominance at channel [c] and pixel [(h, w)] is the
    sum over the bins of [distribution[bin, h, w] * unnormalize(palette[bin, c])],
    [unnormalize] being a scaling, that is, commuting with the product by a
    probability. *)
Theorem chrom_mean_unnorm_expectation
        (bw : ndarray F) (lum256 lum64 : Map2 F) (c h w : nat) :
  (forall p x, unnormalize_ab (fmul p x) = fmul p (unnormalize_ab x)) ->
  is_tensor 313 64 64 (colorizer lum256) ->
  length COEFS = 313 ->
  c < 2 -> h < 64 -> w < 64 ->
  at2 (flit 0) (nth c (chrom_mean_unnorm (process_eccv bw lum256 lum64)) []) h w
  = fsum (map (fun bin =>
                 fmul (at2 (flit 0)
                           (nth bin (proba_distrib (process_eccv bw lum256 lum64)) [])
                           h w)
                      (unnormalize_ab (coef_at COEFS bin c)))
              (seq 0 313)).
Proof.
  intros Hscale Hproba Hcoefs Hc Hh Hw.
  unfold process_eccv. cbn [chrom_mean_unnorm proba_distrib].
  remember (colorizer lum256) as proba eqn:Eproba. clear Eproba.
  pose (P := fun k i j => at2 (flit 0) (nth k proba []) i j).
  pose (C := fun i => nth i COEFS (flit 0, flit 0)).
  assert (EP : proba = tabulate 313 (fun k => tabulate2 64 64 (P k)))
    by exact (tensor_tabulate (flit 0) Hproba).
  assert (EC : COEFS = tabulate 313 C)
    by (rewrite <- Hcoefs; apply tabulate_of_list).
  match goal with
  | |- ?lhs = _ =>
      change (lhs = fsum (tabulate 313
                            (fun bin =>
                               fmul (P bin h w)
                                    (unnormalize_ab (nth c [fst; snd] fst (C bin))))))
  end.
  clearbody P C. rewrite EP, EC. clear EP EC Hproba.
  unfold einsum_abcd_bn_nbcd.
  assert (Hplane :
            forall column : F * F -> F,
              sum_axis0
                (map (map2d unnormalize_ab)
                     (zip_with
                        (fun plane row => map2d (fun p => fmul p (column row)) plane)
                        (tabulate 313 (fun k => tabulate2 64 64 (P k)))
                        (tabulate 313 C)))
              = tabulate2 64 64
                  (fun i j =>
                     fsum (tabulate 313
                             (fun b => fmul (P b i j) (unnormalize_ab (column (C b))))))).
  { intros column. rewrite zip_with_tabulate, map_tabulate.
    rewrite <- (@sum_axis0_tabulate F SF 313 64 64) by lia.
    f_equal. apply tabulate_ext. intros b _.
    rewrite !map2d_tabulate2. apply tabulate2_ext. intros i j _ _.
    apply Hscale. }
  destruct c as [|[|c]]; [| |lia]; cbn [map nth];
    rewrite Hplane, at2_tabulate2 by assumption; reflexivity.
Qed.
End Decoder.

Lemma example_proba_shape (lum256 : Map2 Qc) : is_tensor 313 64 64 (colorizer lum256).
Proof.
  unfold colorizer, example_externals.
  split; [apply repeat_length|].
  apply Forall_forall. intros plane Hplane.
  apply repeat_spec in Hplane. subst plane. apply full_is_map.
Qed.

Lemma example_unnormalize_scaling (p x : Qc) :
  unnormalize_ab (fmul p x) = fmul p (unnormalize_ab x).
Proof.
  unfold unnormalize_ab, example_externals, fmul, Qc_scalar.
  symmetry. apply Qcmult_assoc.
Qed.

Lemma chrom_mean_unnorm_expectation_witness :
  at2 (flit 0)
      (nth 1 (chrom_mean_unnorm
                (process_eccv example_image (full 256 256 (Q2Qc 50)) (full 64 64 (Q2Qc 50))))
           [])
      3 5
  = fsum (map (fun bin =>
                 fmul (at2 (flit 0)
                           (nth bin
                                (proba_distrib
                                   (process_eccv example_image (full 256 256 (Q2Qc 50))
                                                 (full 64 64 (Q2Qc 50))))
                                [])
                           3 5)
                      (unnormalize_ab (coef_at COEFS bin 1)))
              (seq 0 313)).
Proof.
  apply chrom_mean_unnorm_expectation.
  - exact example_unnormalize_scaling.
  - apply example_proba_shape.
  - unfold COEFS, example_externals, example_COEFS. apply tabulate_length.
  - lia.
  - lia.
  - lia.
Defined.

(* ================================================================= *)
(** ** [argmin] and [argmax] *)

Section ArgExtremum.
Context {F : Type} {SF : Scalar F}.

Lemma argmin_from_bound (l : list F) (best : nat) (v : F) (k : nat) :
  best < k -> argmin_from best v k l < k + length l.
Proof.
  revert best v k. induction l as [|x l IH]; intros best v k Hb; simpl.
  - lia.
  - destruct (fltb x v).
    + specialize (IH k x (S k)). lia.
    + specialize (IH best v (S k)). lia.
Qed.

Lemma argmin_bound (l : list F) : l <> [] -> argmin l < length l.
Proof.
  destruct l as [|x l]; [congruence|]. intros _. simpl.
  pose proof (@argmin_from_bound l 0 x 1). lia.
Qed.

Lemma argmax_from_bound (l : list F) (best : nat) (v : F) (k : nat) :
  best < k -> argmax_from best v k l < k + length l.
Proof.
  revert best v k. induction l as [|x l IH]; intros best v k Hb; simpl.
  - lia.
  - destruct (fltb v x).
    + specialize (IH k x (S k)). lia.
    + specialize (IH best v (S k)). lia.
Qed.

Lemma argmax_bound (l : list F) : l <> [] -> argmax l < length l.
Proof.
  destruct l as [|x l]; [congruence|]. intros _. simpl.
  pose proof (@argmax_from_bound l 0 x 1). lia.
Qed.

(** The scan keeps the first least entry of what it has read. *)
Lemma argmin_from_first_min (d : F) (l pre : list F) (best : nat) :
  (forall x : F, fltb x x = false) ->
  (forall x y z : F, fltb x y = true -> fltb y z = true -> fltb x z = true) ->
  (forall x y z : F, fltb x y = true -> fltb x z = true \/ fltb z y = true) ->
  best < length pre ->
  (forall i, i < length pre -> fltb (nth i pre d) (nth best pre d) = false) ->
  (forall i, i < best -> fltb (nth best pre d) (nth i pre d) = true) ->
  let m := argmin_from best (nth best pre d) (length pre) l in
  m < length (pre ++ l)
  /\ (forall i, i < length (pre ++ l) ->
                fltb (nth i (pre ++ l) d) (nth m (pre ++ l) d) = false)
  /\ (forall i, i < m -> fltb (nth m (pre ++ l) d) (nth i (pre ++ l) d) = true).
Proof.
  intros Hirr Htr Hco. revert pre best. induction l as [|x l IH]; intros pre best Hb Hmin Hfirst; simpl.
  - rewrite app_nil_r. auto.
  - assert (Hx : nth (length pre) (pre ++ [x]) d = x)
      by (rewrite app_nth2, Nat.sub_diag by lia; reflexivity).
    assert (Hpre : forall i, i < length pre -> nth i (pre ++ [x]) d = nth i pre d)
      by (intros i Hi; now apply app_nth1).
    assert (Hlen : length (pre ++ [x]) = S (length pre))
      by (rewrite length_app; simpl; lia).
    replace (pre ++ x :: l) with ((pre ++ [x]) ++ l)
      by (rewrite <- app_assoc; reflexivity).
    destruct (fltb x (nth best pre d)) eqn:Hlt.
    + specialize (IH (pre ++ [x]) (length pre)).
      rewrite Hx, Hlen in IH. apply IH.
      * lia.
      * intros i Hi. destruct (Nat.eq_dec i (length pre)) as [->|Hne].
        -- rewrite Hx. apply Hirr.
        -- rewrite Hpre by lia.
           destruct (fltb (nth i pre d) x) eqn:Hix; [|reflexivity].
           rewrite <- (Hmin i) by lia. symmetry.
           now apply Htr with x.
      * intros i Hi. rewrite Hpre by lia.
        destruct (Hco _ _ (nth i pre d) Hlt) as [Hgood|Hbad];
          [exact Hgood|].
        rewrite Hmin in Hbad by lia. discriminate Hbad.
    + specialize (IH (pre ++ [x]) best).
      rewrite Hpre, Hlen in IH by lia. apply IH.
      * lia.
      * intros i Hi. destruct (Nat.eq_dec i (length pre)) as [->|Hne].
        -- now rewrite Hx.
        -- rewrite Hpre by lia. apply Hmin. lia.
      * intros i Hi. rewrite Hpre by lia. now apply Hfirst.
Qed.

(** [argmin] returns an index of the list at which the entry is least, and
    the lowest such index, for any comparison that is a strict weak order. *)
Lemma argmin_first_min (d : F) (l : list F) :
  (forall x : F, fltb x x = false) ->
  (forall x y z : F, fltb x y = true -> fltb y z = true -> fltb x z = true) ->
  (forall x y z : F, fltb x y = true -> fltb x z = true \/ fltb z y = true) ->
  l <> [] ->
  argmin l < length l
  /\ (forall i, i < length l -> fltb (nth i l d) (nth (argmin l) l d) = false)
  /\ (forall i, i < argmin l -> fltb (nth (argmin l) l d) (nth i l d) = true).
Proof.
  intros Hirr Htr Hco. destruct l as [|x l]; [congruence|]. intros _.
  apply (@argmin_from_first_min d l [x] 0 Hirr Htr Hco).
  - simpl. lia.
  - intros i Hi. simpl in Hi. replace i with 0 by lia. apply Hirr.
  - intros i Hi. lia.
Qed.

Context {LF : ScalarLaws F}.

(** The scan keeps the first least entry of what it has read. *)
Lemma argmin_from_spec (d : F) (l pre : list F) (best : nat) :
  best < length pre ->
  (forall i, i < length pre -> fltb (nth i pre d) (nth best pre d) = false) ->
  (forall i, i < best -> fltb (nth best pre d) (nth i pre d) = true) ->
  let m := argmin_from best (nth best pre d) (length pre) l in
  m < length (pre ++ l)
  /\ (forall i, i < length (pre ++ l) ->
                fltb (nth i (pre ++ l) d) (nth m (pre ++ l) d) = false)
  /\ (forall i, i < m -> fltb (nth m (pre ++ l) d) (nth i (pre ++ l) d) = true).
Proof.
  exact (@argmin_from_first_min d l pre best fltb_irrefl fltb_trans fltb_cotrans).
Qed.

(** [argmin] returns an index of the list at which the entry is least, and
    the lowest such index. *)
Lemma argmin_spec (d : F) (l : list F) :
  l <> [] ->
  argmin l < length l
  /\ (forall i, i < length l -> fltb (nth i l d) (nth (argmin l) l d) = false)
  /\ (forall i, i < argmin l -> fltb (nth (argmin l) l d) (nth i l d) = true).
Proof.
  destruct l as [|x l]; [congruence|]. intros _.
  apply (@argmin_from_spec d l [x] 0).
  - simpl. lia.
  - intros i Hi. simpl in Hi. replace i with 0 by lia. apply fltb_irrefl.
  - intros i Hi. lia.
Qed.
End ArgExtremum.

(* ================================================================= *)
(** ** Gathering palette coefficients *)

Section Gather.
Context {F : Type} {SF : Scalar F}.

Lemma ones_313_tabulate :
  @ones_313 F SF = tabulate 313 (fun _ => tabulate2 64 64 (fun _ _ => flit 1)).
Proof.
  unfold ones_313. rewrite repeat_tabulate.
  apply tabulate_ext. intros k _. apply full_tabulate2.
Qed.

Lemma broadcast_mul_ones (cs : list F) :
  length cs = 313 ->
  broadcast_mul cs ones_313
  = tabulate 313 (fun k => tabulate2 64 64 (fun _ _ => fmul (nth k cs (flit 0)) (flit 1))).
Proof.
  intros Hcs. unfold broadcast_mul.
  rewrite ones_313_tabulate, (tabulate_of_list cs (flit 0)), Hcs.
  rewrite zip_with_tabulate. apply tabulate_ext. intros k Hk.
  rewrite map2d_tabulate2. rewrite tabulate_nth by assumption. reflexivity.
Qed.

(** [gather(...).squeeze(2)] reads, for the pixel [(h, w)], the entry
    [(0, w)] of the plane that the index map names at [(h, w)]. *)
Lemma gather_entries (G : nat -> F) (I : nat -> nat -> nat) :
  (forall h w, h < 64 -> w < 64 -> I h w < 313) ->
  squeeze_rows
    (gather_axis0 (tabulate 313 (fun k => tabulate2 64 64 (fun _ _ => G k)))
                  (unsqueeze_rows (tabulate2 64 64 I)))
  = tabulate2 64 64 (fun h w => G (I h w)).
Proof.
  intros HI. unfold squeeze_rows, gather_axis0, unsqueeze_rows, tabulate2.
  rewrite !map_tabulate. apply tabulate_ext. intros h Hh.
  unfold imap at 1. cbn [imap_from hd].
  rewrite imap_tabulate. apply tabulate_ext. intros w Hw.
  rewrite tabulate_nth by now apply HI.
  apply (@at2_tabulate2 F 64 64); lia.
Qed.

Lemma argmin_axis0_tabulate (D : nat -> nat -> nat -> F) :
  argmin_axis0 (tabulate 313 (fun k => tabulate2 64 64 (D k)))
  = tabulate2 64 64 (fun h w => argmin (tabulate 313 (fun k => D k h w))).
Proof.
  unfold argmin_axis0.
  rewrite hd_tabulate, height_tabulate2, width_tabulate2 by lia.
  apply tabulate2_ext. intros h w Hh Hw. now rewrite pixel_column_tabulate.
Qed.

Lemma argmax_axis0_tensor (t : Tensor3 F) :
  is_tensor 313 64 64 t ->
  argmax_axis0 t = tabulate2 64 64 (fun h w => argmax (pixel_column t h w)).
Proof.
  intros Ht. unfold argmax_axis0.
  rewrite (tensor_tabulate (flit 0) Ht) at 1 2.
  rewrite hd_tabulate, height_tabulate2, width_tabulate2 by lia.
  reflexivity.
Qed.

Lemma pixel_column_length (t : Tensor3 F) (h w : nat) :
  length (pixel_column t h w) = length t.
Proof. apply length_map. Qed.

Lemma assign_planes (p0 p1 p2 q0 q1 q2 : Map2 F) :
  assign 0 q0 (assign 2 q2 (assign 1 q1 [p0; p1; p2])) = [q0; q1; q2].
Proof. reflexivity. Qed.
End Gather.

(* ================================================================= *)
(** ** The palette projection, pixel by pixel *)

Section Projection.
Context {F : Type} {SF : Scalar F} {EX : Externals F} {PR : Prior F}.

Lemma coefs_to_128_length : length coefs_to_128 = length COEFS.
Proof. apply length_map. Qed.

Lemma sqdiff_planes (g : nat -> F) (a : nat -> nat -> F) :
  map (fun plane => map2d fpow2 (zip2d fsub plane (tabulate2 64 64 a)))
      (tabulate 313 (fun k => tabulate2 64 64 (fun _ _ => g k)))
  = tabulate 313 (fun k => tabulate2 64 64 (fun h w => fpow2 (fsub (g k) (a h w)))).
Proof.
  rewrite map_tabulate. apply tabulate_ext. intros k _.
  now rewrite zip2d_tabulate2, map2d_tabulate2.
Qed.

Lemma sum_planes (X Y : nat -> nat -> nat -> F) :
  zip_with (zip2d fadd)
           (tabulate 313 (fun k => tabulate2 64 64 (X k)))
           (tabulate 313 (fun k => tabulate2 64 64 (Y k)))
  = tabulate 313 (fun k => tabulate2 64 64 (fun h w => fadd (X k h w) (Y k h w))).
Proof.
  rewrite zip_with_tabulate. apply tabulate_ext. intros k _.
  apply zip2d_tabulate2.
Qed.

Lemma nth_map_fst (l : list (F * F)) (k : nat) :
  nth k (map fst l) (flit 0) = fst (nth k l (flit 0, flit 0)).
Proof. exact (map_nth fst l (flit 0, flit 0) k). Qed.

Lemma nth_map_snd (l : list (F * F)) (k : nat) :
  nth k (map snd l) (flit 0) = snd (nth k l (flit 0, flit 0)).
Proof. exact (map_nth snd l (flit 0, flit 0) k). Qed.

Lemma nearest_bin_tabulate (px : F * F) :
  length COEFS = 313 ->
  nearest_bin palette_on_ones px
  = argmin
      (tabulate 313
         (fun k =>
            fadd (fpow2 (fsub (fmul (nth k (map fst coefs_to_128) (flit 0)) (flit 1))
                              (fst px)))
                 (fpow2 (fsub (fmul (nth k (map snd coefs_to_128) (flit 0)) (flit 1))
                              (snd px))))).
Proof.
  intros Hc. unfold nearest_bin, palette_on_ones. f_equal.
  rewrite (tabulate_of_list coefs_to_128 (flit 0, flit 0)) at 1.
  rewrite coefs_to_128_length, Hc, !map_tabulate.
  apply tabulate_ext. intros k _. unfold sqdist. cbn [fst snd].
  now rewrite nth_map_fst, nth_map_snd.
Qed.

Lemma nearest_bin_bound (px : F * F) :
  length COEFS = 313 -> nearest_bin palette_on_ones px < 313.
Proof.
  intros Hc. unfold nearest_bin.
  assert (Hlen : length (map (fun c => sqdist c px) palette_on_ones) = 313)
    by (unfold palette_on_ones; now rewrite !length_map, coefs_to_128_length).
  assert (Hb : argmin (map (fun c => sqdist c px) palette_on_ones)
               < length (map (fun c => sqdist c px) palette_on_ones)).
  { apply argmin_bound. intros E. rewrite E in Hlen. discriminate Hlen. }
  now rewrite Hlen in Hb.
Qed.

(** The image [projection_chrom] returns, entry by entry. *)
Lemma projection_chrom_entries (self : Loria F) (image : Tensor3 F) :
  ones self = ones_313 ->
  length COEFS = 313 ->
  is_map 64 64 (nth 1 image []) ->
  is_map 64 64 (nth 2 image []) ->
  projection_chrom self image
  = [ div100 (luminance_64 (eccv self));
      tabulate2 64 64
        (fun h w =>
           fmul (nth (nearest_bin palette_on_ones (pixel_ab image h w))
                     (map fst coefs_to_128) (flit 0))
                (flit 1));
      tabulate2 64 64
        (fun h w =>
           fmul (nth (nearest_bin palette_on_ones (pixel_ab image h w))
                     (map snd coefs_to_128) (flit 0))
                (flit 1)) ].
Proof.
  intros Hones Hc HA HB. unfold projection_chrom. cbv zeta. rewrite Hones.
  rewrite !broadcast_mul_ones by (now rewrite length_map, coefs_to_128_length).
  rewrite (tabulate2_of_map (flit 0) HA), (tabulate2_of_map (flit 0) HB).
  rewrite !sqdiff_planes, sum_planes, argmin_axis0_tabulate.
  assert (Hidx :
            forall h w,
              argmin
                (tabulate 313
                   (fun k =>
                      fadd
                        (fpow2 (fsub (fmul (nth k (map fst coefs_to_128) (flit 0)) (flit 1))
                                     (at2 (flit 0) (nth 1 image []) h w)))
                        (fpow2 (fsub (fmul (nth k (map snd coefs_to_128) (flit 0)) (flit 1))
                                     (at2 (flit 0) (nth 2 image []) h w)))))
              = nearest_bin palette_on_ones (pixel_ab image h w))
    by (intros h w; symmetry; now apply nearest_bin_tabulate).
  rewrite (@gather_entries F SF
             (fun k => fmul (nth k (map fst coefs_to_128) (flit 0)) (flit 1)))
    by (intros h w _ _; rewrite Hidx; now apply nearest_bin_bound).
  rewrite (@gather_entries F SF
             (fun k => fmul (nth k (map snd coefs_to_128) (flit 0)) (flit 1)))
    by (intros h w _ _; rewrite Hidx; now apply nearest_bin_bound).
  cbn [repeat assign].
  f_equal. f_equal; [|f_equal];
    apply tabulate2_ext; intros h w _ _; now rewrite Hidx.
Qed.
(** What [nearest_bin] returns, for any comparison that is a strict weak
    order. *)
Lemma nearest_bin_first_min (palette : list (F * F)) (px : F * F) :
  (forall x : F, fltb x x = false) ->
  (forall x y z : F, fltb x y = true -> fltb y z = true -> fltb x z = true) ->
  (forall x y z : F, fltb x y = true -> fltb x z = true \/ fltb z y = true) ->
  palette <> [] ->
  let d0 := (flit 0, flit 0) in
  let m := nearest_bin palette px in
  m < length palette
  /\ (forall k, k < length palette ->
                fltb (sqdist (nth k palette d0) px) (sqdist (nth m palette d0) px) = false)
  /\ (forall k, k < m ->
                fltb (sqdist (nth m palette d0) px) (sqdist (nth k palette d0) px) = true).
Proof.
  intros Hirr Htr Hco Hne d0 m.
  assert (Hne' : map (fun c => sqdist c px) palette <> [])
    by (destruct palette; [congruence | discriminate]).
  destruct (argmin_first_min (sqdist d0 px) Hirr Htr Hco Hne') as (Hb & Hmin & Hfirst).
  fold (nearest_bin palette px) in Hb, Hmin, Hfirst. fold m in Hb, Hmin, Hfirst.
  rewrite length_map in Hb, Hmin.
  split; [exact Hb|]. split.
  - intros k Hk. specialize (Hmin k Hk).
    now rewrite !(map_nth (fun c => sqdist c px)) in Hmin.
  - intros k Hk. specialize (Hfirst k Hk).
    now rewrite !(map_nth (fun c => sqdist c px)) in Hfirst.
Qed.

Lemma palette_on_ones_fixed :
  Forall (fun c : F * F => fmul (fst c) (flit 1) = fst c /\ fmul (snd c) (flit 1) = snd c)
         coefs_to_128 ->
  palette_on_ones = coefs_to_128.
Proof.
  intros Hone. unfold palette_on_ones. rewrite <- (map_id coefs_to_128) at 2.
  apply map_ext_in. intros [a b] Hin. rewrite Forall_forall in Hone.
  destruct (Hone _ Hin) as [Ha Hb]. cbn [fst snd] in *. now rewrite Ha, Hb.
Qed.

(** C7, as amended: for a 3 x 64 x 64 image and the palette of 313 entries,
    the (a, b) pair of every pixel of the projected image is the palette
    entry (in the normalised space of [coefs_to_128]) of index [m], where
    [m] is below 313, no entry has a strictly smaller squared distance to
    the pixel of the input than entry [m], and every entry of lower index
    has a strictly greater one, the squared distance being the one the
    program computes in its own arithmetic; channel 0 of the projected
    image is [luminance_64 / 100].  The arithmetic is only asked to compare
    as a strict weak order and to leave the palette entries unchanged when
    they are multiplied by 1, which rounded arithmetic does. *)
Theorem projection_chrom_nearest (self : Loria F) (image : Tensor3 F) (h w : nat) :
  (forall x : F, fltb x x = false) ->
  (forall x y z : F, fltb x y = true -> fltb y z = true -> fltb x z = true) ->
  (forall x y z : F, fltb x y = true -> fltb x z = true \/ fltb z y = true) ->
  Forall (fun c : F * F => fmul (fst c) (flit 1) = fst c /\ fmul (snd c) (flit 1) = snd c)
         coefs_to_128 ->
  ones self = ones_313 ->
  length COEFS = 313 ->
  is_tensor 3 64 64 image ->
  h < 64 -> w < 64 ->
  let d0 := (flit 0, flit 0) in
  let px := pixel_ab image h w in
  let m := nearest_bin coefs_to_128 px in
  m < 313
  /\ pixel_ab (projection_chrom self image) h w = nth m coefs_to_128 d0
  /\ (forall k, k < 313 ->
        fltb (sqdist (nth k coefs_to_128 d0) px) (sqdist (nth m coefs_to_128 d0) px)
        = false)
  /\ (forall k, k < m ->
        fltb (sqdist (nth m coefs_to_128 d0) px) (sqdist (nth k coefs_to_128 d0) px)
        = true)
  /\ nth 0 (projection_chrom self image) [] = div100 (luminance_64 (eccv self)).
Proof.
  intros Hirr Htr Hco Hone Hones Hc Himg Hh Hw d0 px m.
  assert (Hlen : length coefs_to_128 = 313) by now rewrite coefs_to_128_length.
  assert (Hne : coefs_to_128 <> [])
    by (intros E; rewrite E in Hlen; discriminate Hlen).
  destruct (nearest_bin_first_min px Hirr Htr Hco Hne) as (Hb & Hmin & Hfirst).
  fold d0 in Hmin, Hfirst. fold m in Hb, Hmin, Hfirst. rewrite Hlen in Hb, Hmin.
  assert (H1 : is_map 64 64 (nth 1 image [])).
  { destruct Himg as [Hl Hm]. rewrite Forall_forall in Hm. apply Hm, nth_In.
    apply Nat.lt_le_trans with 3; [lia | apply Nat.eq_le_incl; symmetry; exact Hl]. }
  assert (H2 : is_map 64 64 (nth 2 image [])).
  { destruct Himg as [Hl Hm]. rewrite Forall_forall in Hm. apply Hm, nth_In.
    apply Nat.lt_le_trans with 3; [lia | apply Nat.eq_le_incl; symmetry; exact Hl]. }
  rewrite (projection_chrom_entries self image Hones Hc H1 H2).
  split; [exact Hb|]. split; [|split; [exact Hmin|split; [exact Hfirst|reflexivity]]].
  unfold pixel_ab at 1. cbn [nth].
  rewrite !at2_tabulate2 by assumption.
  rewrite (palette_on_ones_fixed Hone), nth_map_fst, nth_map_snd.
  fold px. fold m. fold d0.
  assert (Hin : In (nth m coefs_to_128 d0) coefs_to_128)
    by (apply nth_In; now rewrite Hlen).
  rewrite Forall_forall in Hone. destruct (Hone _ Hin) as [Ha Hb'].
  rewrite Ha, Hb'. now destruct (nth m coefs_to_128 d0).
Qed.
End Projection.

Section ProjectionLaws.
Context {F : Type} {SF : Scalar F} {EX : Externals F} {PR : Prior F}.
Context {LF : ScalarLaws F}.

Lemma palette_on_ones_eq : palette_on_ones = coefs_to_128.
Proof.
  unfold palette_on_ones. rewrite <- (map_id coefs_to_128) at 2.
  apply map_ext. intros [a b]. cbn [fst snd]. now rewrite !fmul_1_r.
Qed.

Lemma tensor_channel (c h w : nat) (t : Tensor3 F) (k : nat) :
  is_tensor c h w t -> k < c -> is_map h w (nth k t []).
Proof.
  intros [Hc Hmaps] Hk. rewrite Forall_forall in Hmaps.
  apply Hmaps, nth_In. rewrite <- Hc in Hk. exact Hk.
Qed.

(** What [nearest_bin] returns, in the words of the specification. *)
Lemma nearest_bin_spec (palette : list (F * F)) (px : F * F) :
  palette <> [] ->
  let d0 := (flit 0, flit 0) in
  let m := nearest_bin palette px in
  m < length palette
  /\ (forall k, k < length palette ->
                fltb (sqdist (nth k palette d0) px) (sqdist (nth m palette d0) px) = false)
  /\ (forall k, k < m ->
                fltb (sqdist (nth m palette d0) px) (sqdist (nth k palette d0) px) = true).
Proof.
  intros Hne d0 m.
  assert (Hne' : map (fun c => sqdist c px) palette <> [])
    by (destruct palette; [congruence | discriminate]).
  destruct (argmin_spec (sqdist d0 px) Hne') as (Hb & Hmin & Hfirst).
  fold (nearest_bin palette px) in Hb, Hmin, Hfirst. fold m in Hb, Hmin, Hfirst.
  rewrite length_map in Hb, Hmin.
  split; [exact Hb|]. split.
  - intros k Hk. specialize (Hmin k Hk).
    now rewrite !(map_nth (fun c => sqdist c px)) in Hmin.
  - intros k Hk. specialize (Hfirst k Hk).
    now rewrite !(map_nth (fun c => sqdist c px)) in Hfirst.
Qed.

(** A palette entry is its own nearest entry, up to the choice among equal
    entries. *)
Lemma nearest_bin_of_entry (palette : list (F * F)) (m : nat) :
  m < length palette ->
  nth (nearest_bin palette (nth m palette (flit 0, flit 0))) palette (flit 0, flit 0)
  = nth m palette (flit 0, flit 0).
Proof.
  intros Hm.
  assert (Hne : palette <> []) by (destruct palette; [simpl in Hm; lia | discriminate]).
  destruct (nearest_bin_spec (nth m palette (flit 0, flit 0)) Hne) as (_ & Hmin & _).
  specialize (Hmin m Hm).
  set (c := nth m palette (flit 0, flit 0)) in *.
  set (c' := nth (nearest_bin palette c) palette (flit 0, flit 0)) in *.
  assert (Hzero : sqdist c c = flit 0).
  { unfold sqdist, fpow2. now rewrite !fsub_diag, fmul_0_0, fadd_0_0. }
  rewrite Hzero in Hmin. unfold sqdist, fpow2 in Hmin.
  apply sumsq_pos in Hmin. destruct Hmin as [Ha Hb].
  apply fsub_eq_0 in Ha. apply fsub_eq_0 in Hb.
  destruct c as [a b], c' as [a' b']. cbn [fst snd] in Ha, Hb. now subst.
Qed.

(** C6: projecting a projected 3 x 64 x 64 image gives the same image. *)
Theorem projection_chrom_idempotent (self : Loria F) (x : Tensor3 F) :
  ones self = ones_313 ->
  length COEFS = 313 ->
  is_tensor 3 64 64 x ->
  projection_chrom self (projection_chrom self x) = projection_chrom self x.
Proof.
  intros Hones Hc Hx.
  assert (Hlen : length coefs_to_128 = 313) by now rewrite coefs_to_128_length.
  rewrite (projection_chrom_entries self x Hones Hc)
    by (apply (tensor_channel Hx); lia).
  rewrite (projection_chrom_entries self _ Hones Hc)
    by (cbn [nth]; apply tabulate2_is_map).
  assert (Hfix :
            forall h w, h < 64 -> w < 64 ->
              nearest_bin palette_on_ones
                (pixel_ab
                   [div100 (luminance_64 (eccv self));
                    tabulate2 64 64
                      (fun h w =>
                         fmul (nth (nearest_bin palette_on_ones (pixel_ab x h w))
                                   (map fst coefs_to_128) (flit 0)) (flit 1));
                    tabulate2 64 64
                      (fun h w =>
                         fmul (nth (nearest_bin palette_on_ones (pixel_ab x h w))
                                   (map snd coefs_to_128) (flit 0)) (flit 1))]
                   h w)
              = nearest_bin coefs_to_128
                  (nth (nearest_bin coefs_to_128 (pixel_ab x h w)) coefs_to_128
                       (flit 0, flit 0))).
  { intros h w Hh Hw. unfold pixel_ab at 1. cbn [nth].
    rewrite !at2_tabulate2 by assumption.
    rewrite palette_on_ones_eq, !fmul_1_r, nth_map_fst, nth_map_snd.
    now destruct (nth (nearest_bin coefs_to_128 (pixel_ab x h w)) coefs_to_128
                      (flit 0, flit 0)). }
  assert (Hbound : forall px, nearest_bin coefs_to_128 px < length coefs_to_128).
  { intros px. rewrite Hlen, <- palette_on_ones_eq. now apply nearest_bin_bound. }
  f_equal. f_equal; [|f_equal]; apply tabulate2_ext; intros h w Hh Hw;
    rewrite Hfix by assumption; rewrite palette_on_ones_eq;
    rewrite nth_map_fst || rewrite nth_map_snd;
    rewrite (nearest_bin_of_entry _ (Hbound _));
    (rewrite nth_map_fst || rewrite nth_map_snd); reflexivity.
Qed.
End ProjectionLaws.

(* ================================================================= *)
(** ** Exact rationals satisfy the laws *)

Lemma Qc_fltb_lt (x y : Qc) : fltb x y = true <-> Qclt x y.
Proof.
  unfold fltb, Qc_scalar. rewrite Qclt_alt.
  destruct (Qccompare x y); split; congruence.
Qed.

Lemma Qc_fltb_ge (x y : Qc) : fltb x y = false <-> Qcle y x.
Proof.
  split.
  - intros H. apply Qcnot_lt_le. intros L. apply Qc_fltb_lt in L. congruence.
  - intros H. destruct (fltb x y) eqn:E; [|reflexivity].
    apply Qc_fltb_lt in E. exfalso. exact (Qcle_not_lt _ _ H E).
Qed.

Lemma Qc_sumsq_this (x y : Qc) :
  (this (Qcplus (Qcmult x x) (Qcmult y y)) == this x * this x + this y * this y)%Q.
Proof.
  unfold Qcplus, Qcmult, Q2Qc. cbn [this]. now rewrite !Qred_correct.
Qed.

Lemma Qc_sumsq_nonneg (x y : Qc) : Qcle (Q2Qc 0) (Qcplus (Qcmult x x) (Qcmult y y)).
Proof.
  unfold Qcle. rewrite Qc_sumsq_this. cbn [this Q2Qc]. 
  change (Qred 0) with 0%Q. nra.
Qed.

Lemma Qc_sumsq_zero (x y : Qc) :
  Qcle (Qcplus (Qcmult x x) (Qcmult y y)) (Q2Qc 0) -> x = Q2Qc 0 /\ y = Q2Qc 0.
Proof.
  unfold Qcle. rewrite Qc_sumsq_this. cbn [this Q2Qc]. change (Qred 0) with 0%Q.
  intros H. split; apply Qc_is_canon; cbn [this Q2Qc]; change (Qred 0) with 0%Q; nra.
Qed.

#[export] Instance Qc_laws : ScalarLaws Qc.
Proof.
  split.
  - intros x. apply Qc_fltb_ge. apply Qcle_refl.
  - intros x y z Hxy Hyz. apply Qc_fltb_lt in Hxy, Hyz. apply Qc_fltb_lt.
    now apply Qclt_trans with y.
  - intros x y z Hxy. apply Qc_fltb_lt in Hxy.
    destruct (Qclt_le_dec x z) as [Hxz|Hzx].
    + left. now apply Qc_fltb_lt.
    + right. apply Qc_fltb_lt. now apply Qcle_lt_trans with x.
  - intros x. apply Qcmult_1_r.
  - intros x. apply Qcplus_opp_r.
  - intros x y Hxy. cbn [fsub Qc_scalar flit] in Hxy.
    rewrite <- (Qcplus_0_l y). change (Q2Qc 0) with 0%Qc in Hxy. rewrite <- Hxy. ring.
  - apply Qcmult_0_l.
  - apply Qcplus_0_l.
  - intros x y. apply Qc_fltb_ge. apply Qc_sumsq_nonneg.
  - intros x y Hxy. apply Qc_fltb_ge in Hxy. now apply Qc_sumsq_zero.
Qed.

Lemma example_COEFS_length : length (@COEFS Qc example_externals) = 313.
Proof. unfold COEFS, example_externals, example_COEFS. apply tabulate_length. Qed.

Lemma example_lab_64_shape : is_tensor 3 64 64 example_lab_64.
Proof.
  split; [apply repeat_length|].
  apply Forall_forall. intros plane Hplane.
  apply repeat_spec in Hplane. subst plane. apply full_is_map.
Qed.

(** [round32] on known single-precision values: 1/3 and 1/10 round to
    0x3EAAAAAB and 0x3DCCCCCD, 2^24 + 1 is a tie and rounds to the even
    2^24, and a number with 24 significant bits is kept. *)
Example round32_known_values :
  round32 (1 # 3) = (11184811 # 33554432)%Q
  /\ round32 (1 # 10) = (13421773 # 134217728)%Q
  /\ round32 (inject_Z 16777217) = inject_Z 16777216
  /\ Qeq (round32 (1199813 # 2097152)) (1199813 # 2097152).
Proof. repeat split; vm_compute; reflexivity. Qed.

Lemma f32_COEFS_length : length (@COEFS Qc f32_externals) = 313.
Proof.
  unfold COEFS, f32_externals, f32_COEFS, example_COEFS.
  rewrite length_map. apply tabulate_length.
Qed.

Lemma f32_image_shape : is_tensor 3 64 64 f32_image.
Proof.
  split; [reflexivity|]. unfold f32_image.
  apply Forall_cons; [apply full_is_map|].
  apply Forall_cons; [apply full_is_map|].
  apply Forall_cons; [apply full_is_map|]. apply Forall_nil.
Qed.

(** Multiplying a palette entry by 1 rounds it to itself. *)
Lemma f32_palette_times_one :
  Forall (fun c : Qc * Qc =>
            @fmul Qc f32_scalar (fst c) (@flit Qc f32_scalar 1) = fst c
            /\ @fmul Qc f32_scalar (snd c) (@flit Qc f32_scalar 1) = snd c)
         (@coefs_to_128 Qc f32_scalar f32_externals).
Proof.
  apply Forall_forall. intros c Hc.
  assert (B : forallb
                (fun c : Qc * Qc =>
                   Qc_eq_bool (@fmul Qc f32_scalar (fst c) (@flit Qc f32_scalar 1)) (fst c)
                   && Qc_eq_bool (@fmul Qc f32_scalar (snd c) (@flit Qc f32_scalar 1))
                                 (snd c))
                (@coefs_to_128 Qc f32_scalar f32_externals) = true)
    by (vm_compute; reflexivity).
  rewrite forallb_forall in B. specialize (B c Hc).
  apply andb_true_iff in B. destruct B as [Ba Bb].
  split; apply Qc_eq_bool_correct; assumption.
Qed.

Lemma projection_chrom_nearest_witness :
  @pixel_ab Qc f32_scalar
    (@projection_chrom Qc f32_scalar f32_externals example_prior f32_loria f32_image) 0 0
  = nth (@nearest_bin Qc f32_scalar (@coefs_to_128 Qc f32_scalar f32_externals)
                      (@pixel_ab Qc f32_scalar f32_image 0 0))
        (@coefs_to_128 Qc f32_scalar f32_externals)
        (@flit Qc f32_scalar 0, @flit Qc f32_scalar 0).
Proof.
  assert (H0 : 0 < 64) by lia.
  destruct (@projection_chrom_nearest Qc f32_scalar f32_externals example_prior
              f32_loria f32_image 0 0
              (@fltb_irrefl Qc Qc_scalar Qc_laws)
              (@fltb_trans Qc Qc_scalar Qc_laws)
              (@fltb_cotrans Qc Qc_scalar Qc_laws)
              f32_palette_times_one eq_refl f32_COEFS_length f32_image_shape H0 H0)
    as (_ & Hpx & _).
  exact Hpx.
Defined.

(** C7, as stated, fails in single-precision arithmetic: at the pixel
    a = 1199813 / 2^21, b = 1945915 / 2^21 the squared distances to the
    palette entries 100 and 101 round to the same number, the projection
    returns entry 100, the first of the two, and entry 101 is the strictly
    nearer one. *)
Lemma projection_chrom_rounding_counterexample :
  @pixel_ab Qc f32_scalar
    (@projection_chrom Qc f32_scalar f32_externals example_prior f32_loria f32_image) 0 0
  = nth 100 (@coefs_to_128 Qc f32_scalar f32_externals)
        (@flit Qc f32_scalar 0, @flit Qc f32_scalar 0)
  /\ Qclt
       (@sqdist Qc Qc_scalar
          (nth 101 (@coefs_to_128 Qc f32_scalar f32_externals) (Q2Qc 0, Q2Qc 0))
          (@pixel_ab Qc f32_scalar f32_image 0 0))
       (@sqdist Qc Qc_scalar
          (nth 100 (@coefs_to_128 Qc f32_scalar f32_externals) (Q2Qc 0, Q2Qc 0))
          (@pixel_ab Qc f32_scalar f32_image 0 0)).
Proof.
  assert (H1 : 1 < 3) by lia. assert (H2 : 2 < 3) by lia.
  split.
  - rewrite (@projection_chrom_entries Qc f32_scalar f32_externals example_prior
               f32_loria f32_image eq_refl f32_COEFS_length
               (tensor_channel f32_image_shape H1)
               (tensor_channel f32_image_shape H2)).
    unfold pixel_ab at 1. cbn [nth]. rewrite !at2_tabulate2 by lia.
    apply injective_projections; apply Qc_is_canon; vm_compute; reflexivity.
  - vm_compute. reflexivity.
Qed.

Lemma projection_chrom_idempotent_witness :
  projection_chrom example_loria (projection_chrom example_loria example_lab_64)
  = projection_chrom example_loria example_lab_64.
Proof.
  apply projection_chrom_idempotent.
  - reflexivity.
  - exact example_COEFS_length.
  - exact example_lab_64_shape.
Defined.

(* ================================================================= *)
(** ** The initial target *)

Section InitialTarget.
Context {F : Type} {SF : Scalar F} {EX : Externals F} {PR : Prior F}.

(** The image [get_initialized_image] returns, entry by entry. *)
Lemma get_initialized_image_entries (e : ECCVImage F) :
  is_tensor 313 64 64 (proba_distrib e) ->
  length COEFS = 313 ->
  get_initialized_image e ones_313
  = [ div100 (luminance_64 e);
      tabulate2 64 64
        (fun h w =>
           fmul (nth (argmax (pixel_column (proba_distrib e) h w))
                     (map fst coefs_to_128) (flit 0))
                (flit 1));
      tabulate2 64 64
        (fun h w =>
           fmul (nth (argmax (pixel_column (proba_distrib e) h w))
                     (map snd coefs_to_128) (flit 0))
                (flit 1)) ].
Proof.
  intros Hproba Hc. unfold get_initialized_image. cbv zeta.
  assert (Hbound : forall h w, h < 64 -> w < 64 ->
                     argmax (pixel_column (proba_distrib e) h w) < 313).
  { intros h w _ _.
    assert (Hlen : length (pixel_column (proba_distrib e) h w) = 313)
      by (rewrite pixel_column_length; apply Hproba).
    assert (Hb : argmax (pixel_column (proba_distrib e) h w)
                 < length (pixel_column (proba_distrib e) h w)).
    { apply argmax_bound. intros E. rewrite E in Hlen. discriminate Hlen. }
    now rewrite Hlen in Hb. }
  rewrite !broadcast_mul_ones by (now rewrite length_map, coefs_to_128_length).
  rewrite (argmax_axis0_tensor Hproba).
  rewrite (@gather_entries F SF
             (fun k => fmul (nth k (map fst coefs_to_128) (flit 0)) (flit 1)))
    by exact Hbound.
  rewrite (@gather_entries F SF
             (fun k => fmul (nth k (map snd coefs_to_128) (flit 0)) (flit 1)))
    by exact Hbound.
  reflexivity.
Qed.

Lemma coefs_to_128_nth (bin : nat) :
  bin < length COEFS ->
  nth bin coefs_to_128 (flit 0, flit 0)
  = (fmul (flit (1 # 2)) (fadd (coef_at COEFS bin 0) (flit 1)),
     fmul (flit (1 # 2)) (fadd (coef_at COEFS bin 1) (flit 1))).
Proof.
  intros Hbin. unfold coefs_to_128, coef_at. cbn [nth].
  rewrite (nth_indep _ (flit 0, flit 0)
             (fmul (flit (1 # 2)) (fadd (fst (flit 0, flit 0)) (flit 1)),
              fmul (flit (1 # 2)) (fadd (snd (flit 0, flit 0)) (flit 1))))
    by now rewrite length_map.
  exact (map_nth
           (fun ab => (fmul (flit (1 # 2)) (fadd (fst ab) (flit 1)),
                       fmul (flit (1 # 2)) (fadd (snd ab) (flit 1))))
           COEFS (flit 0, flit 0) bin).
Qed.

(** C4, as amended: the initial target has channel 0 equal to
    [luminance_64 / 100], and at every pixel its (a, b) pair is read at the
    bin of greatest probability (the mode, not the mean), as the palette
    coefficients of that bin rescaled to [[0, 1]] by [0.5 * (c + 1)];
    [unnormalize_ab] is not applied. *)
Theorem initial_target_mode (black_image : ndarray F) (net0 : Params) (h w : nat) :
  (forall x : F, fmul x (flit 1) = x) ->
  is_tensor 313 64 64 (proba_distrib (ECCVImage_init black_image)) ->
  length COEFS = 313 ->
  h < 64 -> w < 64 ->
  let e := ECCVImage_init black_image in
  let target := target_dip (Loria_init black_image net0) in
  let bin := argmax (pixel_column (proba_distrib e) h w) in
  bin < 313
  /\ pixel_ab target h w
     = (fmul (flit (1 # 2)) (fadd (coef_at COEFS bin 0) (flit 1)),
        fmul (flit (1 # 2)) (fadd (coef_at COEFS bin 1) (flit 1)))
  /\ nth 0 target [] = div100 (luminance_64 e).
Proof.
  intros Hone Hproba Hc Hh Hw e target bin.
  assert (Hbin : bin < 313).
  { assert (Hlen : length (pixel_column (proba_distrib e) h w) = 313)
      by (rewrite pixel_column_length; apply Hproba).
    assert (Hb : bin < length (pixel_column (proba_distrib e) h w)).
    { apply argmax_bound. intros E. rewrite E in Hlen. discriminate Hlen. }
    now rewrite Hlen in Hb. }
  split; [exact Hbin|].
  unfold target, Loria_init. cbn [target_dip]. fold e.
  rewrite (get_initialized_image_entries e Hproba Hc).
  split; [|reflexivity].
  unfold pixel_ab. cbn [nth]. rewrite !at2_tabulate2 by assumption.
  fold bin. rewrite !Hone, nth_map_fst, nth_map_snd.
  rewrite coefs_to_128_nth by now rewrite Hc.
  reflexivity.
Qed.
End InitialTarget.

Lemma example_eccv_proba_shape :
  is_tensor 313 64 64 (proba_distrib (ECCVImage_init example_image)).
Proof.
  unfold ECCVImage_init, process_eccv. cbn [proba_distrib].
  apply example_proba_shape.
Qed.

Lemma initial_target_mode_witness :
  nth 0 (target_dip (Loria_init example_image (Q2Qc (1 # 2)))) []
  = div100 (luminance_64 (ECCVImage_init example_image)).
Proof.
  assert (H3 : 3 < 64) by lia. assert (H5 : 5 < 64) by lia.
  destruct (@initial_target_mode Qc Qc_scalar example_externals example_prior
              example_image (Q2Qc (1 # 2)) 3 5
              Qcmult_1_r example_eccv_proba_shape example_COEFS_length H3 H5)
    as (_ & _ & Hlum).
  exact Hlum.
Defined.

(** C4, as stated, fails where [unnormalize_ab] is the scaling by 110 of
    eccv16: under the uniform distribution the mode is bin 0, whose
    coefficient a = -1 gives 0.5 * (-1 + 1) = 0 in the target and not
    [unnormalize_ab (-1) = -110]. *)
Lemma initial_target_not_unnormalized_counterexample :
  fst (pixel_ab (target_dip example_loria) 0 0)
  <> unnormalize_ab
       (coef_at COEFS
          (argmax (pixel_column (proba_distrib (eccv example_loria)) 0 0)) 0).
Proof.
  unfold example_loria, Loria_init. cbn [target_dip eccv].
  rewrite (get_initialized_image_entries _ example_eccv_proba_shape example_COEFS_length).
  unfold pixel_ab. cbn [nth fst]. rewrite at2_tabulate2 by lia.
  change (proba_distrib (ECCVImage_init example_image))
    with (repeat (full 64 64 (Q2Qc (1 # 313))) 313).
  intros E. apply (f_equal (@this)) in E. vm_compute in E. discriminate E.
Qed.

(* ================================================================= *)
(** ** The composite loss *)

Lemma zip_with_map_same {A B C D : Type} (f : B -> C -> D) (g : A -> B) (g' : A -> C)
      (l : list A) :
  zip_with f (map g l) (map g' l) = map (fun x => f (g x) (g' x)) l.
Proof. induction l as [|x l IH]; simpl; [reflexivity | now rewrite IH]. Qed.

Lemma flat_map_map {A B C : Type} (f : B -> list C) (g : A -> B) (l : list A) :
  flat_map f (map g l) = flat_map (fun x => f (g x)) l.
Proof. induction l as [|x l IH]; simpl; [reflexivity | now rewrite IH]. Qed.

Section Loss.
Context {F : Type} {SF : Scalar F} {EX : Externals F} {PR : Prior F}.

Lemma rows_from_1_tabulate2 (H W : nat) (g : nat -> nat -> F) :
  rows_from_1 (tabulate2 H W g) = tabulate2 (H - 1) W (fun i j => g (S i) j).
Proof. apply tl_tabulate. Qed.

Lemma rows_but_last_tabulate2 (H W : nat) (g : nat -> nat -> F) :
  rows_but_last (tabulate2 H W g) = tabulate2 (H - 1) W g.
Proof. apply removelast_tabulate. Qed.

Lemma cols_from_1_tabulate2 (H W : nat) (g : nat -> nat -> F) :
  cols_from_1 (tabulate2 H W g) = tabulate2 H (W - 1) (fun i j => g i (S j)).
Proof.
  unfold cols_from_1, tabulate2. rewrite map_tabulate.
  apply tabulate_ext. intros i _. apply tl_tabulate.
Qed.

Lemma cols_but_last_tabulate2 (H W : nat) (g : nat -> nat -> F) :
  cols_but_last (tabulate2 H W g) = tabulate2 H (W - 1) g.
Proof.
  unfold cols_but_last, tabulate2. rewrite map_tabulate.
  apply tabulate_ext. intros i _. apply removelast_tabulate.
Qed.

Lemma flatten2_tabulate2 (H W : nat) (g : nat -> nat -> F) :
  flatten2 (tabulate2 H W g) = flat_map (fun i => map (fun j => g i j) (seq 0 W)) (seq 0 H).
Proof.
  unfold flatten2, tabulate2, tabulate. symmetry. apply flat_map_concat_map.
Qed.

(** The slices of [tv_c], entry by entry, on maps given by their entries. *)
Lemma tv_c_tabulate (H W : nat) (L : nat -> nat -> F) (chs : list (nat -> nat -> F))
      (gamma : F) :
  tv_c (tabulate2 H W L) (map (tabulate2 H W) chs) gamma
  = fmul (flit (5 # 1000000))
      (fsum
         (flat_map
            (fun A =>
               flat_map
                 (fun i =>
                    map (fun j =>
                           fsqrt
                             (fadd
                                (fadd
                                   (fadd
                                      (fadd (flit (1 # 100000))
                                         (fmul gamma (fpow2 (fsub (L i (S j)) (L i j)))))
                                      (fmul gamma (fpow2 (fsub (L (S i) j) (L i j)))))
                                   (fpow2 (fsub (A i (S j)) (A i j))))
                                (fpow2 (fsub (A (S i) j) (A i j)))))
                        (seq 0 (W - 1)))
                 (seq 0 (H - 1)))
            chs)).
Proof.
  unfold tv_c. cbv zeta. f_equal. f_equal.
  rewrite !map_map, zip_with_map_same.
  unfold flatten3. rewrite !map_map, <- flat_map_concat_map.
  apply flat_map_ext. intros A.
  repeat rewrite ?cols_from_1_tabulate2, ?cols_but_last_tabulate2,
    ?rows_from_1_tabulate2, ?rows_but_last_tabulate2,
    ?zip2d_tabulate2, ?map2d_tabulate2.
  apply flatten2_tabulate2.
Qed.

(** [tv_c] computes the coupled total variation of the specification. *)
Lemma tv_c_spec (H W : nat) (lum : Map2 F) (ab : Tensor3 F) (gamma : F) :
  0 < H ->
  is_map H W lum ->
  Forall (is_map H W) ab ->
  tv_c lum ab gamma = coupled_tv_spec lum ab gamma.
Proof.
  intros HH Hlum Hab.
  assert (Hh : height lum = H) by apply Hlum.
  assert (Hw : width lum = W).
  { destruct Hlum as [Hlen Hrows]. unfold width.
    destruct lum as [|row lum]; [simpl in Hlen; lia|].
    simpl. now inversion Hrows. }
  assert (Eab : ab = map (tabulate2 H W) (map (at2 (flit 0)) ab)).
  { rewrite map_map. rewrite <- (map_id ab) at 1.
    apply map_ext_in. intros ch Hch. rewrite Forall_forall in Hab.
    now apply tabulate2_of_map, Hab. }
  unfold coupled_tv_spec. rewrite Hh, Hw.
  rewrite (tabulate2_of_map (flit 0) Hlum) at 1. rewrite Eab at 1.
  rewrite tv_c_tabulate, flat_map_map. reflexivity.
Qed.

(** C3: the loss of a network output [out] (3 x 256 x 256, the luminance
    being 256 x 256) is the sum of the mean squared error between the
    downsampled output and the target, the mean squared error between
    channel 0 of the output and [luminance_256 / 100], and the coupled total
    variation of the specification on [luminance_256 / 100] and the channels
    1 and 2 of the output, with [gamma = 100] as [closure] calls it. *)
Theorem loss_coupled_tv_composite (self : Loria F) (out : Tensor3 F) (j : nat) :
  is_map 256 256 (luminance_256 (eccv self)) ->
  is_tensor 3 256 256 out ->
  loss_coupled_tv self out (flit 100)
  = fadd
      (fadd
         (mse_loss (flatten3 (downsampler out)) (flatten3 (target_dip self)))
         (mse_loss (flatten2 (nth 0 out []))
                   (flatten2 (div100 (luminance_256 (eccv self))))))
      (coupled_tv_spec (div100 (luminance_256 (eccv self)))
                       [nth 1 out []; nth 2 out []] (flit 100))
  /\ snd (closure self j)
     = loss_coupled_tv (with_out self (dip_net (dip_params self)))
                       (dip_net (dip_params self)) (flit 100).
Proof.
  intros Hlum Hout. split; [|reflexivity].
  unfold loss_coupled_tv. cbv zeta. f_equal.
  apply (@tv_c_spec 256 256).
  - lia.
  - unfold div100. rewrite (tabulate2_of_map (flit 0) Hlum), map2d_tabulate2.
    apply tabulate2_is_map.
  - destruct Hout as [Hlen Hmaps]. rewrite Forall_forall in Hmaps.
    apply Forall_cons; [|apply Forall_cons; [|apply Forall_nil]];
      apply Hmaps, nth_In;
      (apply Nat.lt_le_trans with 3;
       [lia | apply Nat.eq_le_incl; symmetry; exact Hlen]).
Qed.
End Loss.

Lemma example_luminance_256_shape : is_map 256 256 (luminance_256 (eccv example_loria)).
Proof.
  unfold example_loria, Loria_init, ECCVImage_init, process_eccv.
  cbn [eccv luminance_256]. unfold resize_image, example_externals. cbn [fst snd].
  rewrite full_tabulate2, map2d_tabulate2. apply tabulate2_is_map.
Qed.

Lemma loss_coupled_tv_composite_witness :
  loss_coupled_tv example_loria (dip_net (dip_params example_loria)) (flit 100)
  = fadd
      (fadd
         (mse_loss (flatten3 (downsampler (dip_net (dip_params example_loria))))
                   (flatten3 (target_dip example_loria)))
         (mse_loss (flatten2 (nth 0 (dip_net (dip_params example_loria)) []))
                   (flatten2 (div100 (luminance_256 (eccv example_loria))))))
      (coupled_tv_spec (div100 (luminance_256 (eccv example_loria)))
                       [nth 1 (dip_net (dip_params example_loria)) [];
                        nth 2 (dip_net (dip_params example_loria)) []]
                       (flit 100)).
Proof.
  exact (proj1 (@loss_coupled_tv_composite Qc Qc_scalar example_externals example_prior
                  example_loria (dip_net (dip_params example_loria)) 0
                  example_luminance_256_shape (example_dip_net_shape _))).
Defined.

(* ================================================================= *)
(** * Further properties of the module *)

(** ** Slices and the single-channel selection *)

Lemma shape_select_0 {A : Type} (dim : nat) (t : ndarray A) :
  dim < ndim t ->
  nth dim (shape t) 0 <> 0 ->
  shape (select dim 0 t) = remove_axis dim (shape t).
Proof.
  revert t. induction dim as [|dim IH]; intros t Hd Hext.
  - destruct t as [x|[|x l]]; simpl in *; try lia. reflexivity.
  - destruct t as [x|[|x l]]; unfold ndim in *; simpl in *; try lia.
    rewrite length_map. unfold remove_axis in *. simpl. f_equal.
    apply IH; [unfold ndim; lia | exact Hext].
Qed.

(** X1: selecting index 0 along an axis of positive extent removes that axis
    from the shape. *)
Theorem select_shape {A : Type} (dim : nat) (t : ndarray A) :
  dim < ndim t ->
  nth dim (shape t) 0 <> 0 ->
  shape (select dim 0 t) = remove_axis dim (shape t).
Proof. apply shape_select_0. Qed.

Lemma select_shape_witness :
  shape (select 2 0 example_image_3d) = remove_axis 2 (shape example_image_3d).
Proof. apply select_shape; [unfold ndim; simpl; lia | simpl; lia]. Defined.

Lemma convert_to_single_channel_cases {A : Type} (image : ndarray A) :
  convert_to_single_channel image = image
  \/ exists dim, dim < 3 /\ ndim image = 3 /\ nth dim (shape image) 0 = 3
                 /\ (forall d', d' < dim -> nth d' (shape image) 0 <> 3)
                 /\ convert_to_single_channel image = select dim 0 image.
Proof.
  unfold convert_to_single_channel.
  destruct (Nat.eqb_spec (ndim image) 3) as [Hn|Hn]; [|now left].
  simpl.
  destruct (Nat.eqb_spec (nth 0 (shape image) 0) 3) as [E0|E0].
  { right. exists 0. repeat split; try assumption; lia. }
  destruct (Nat.eqb_spec (nth 1 (shape image) 0) 3) as [E1|E1].
  { right. exists 1. repeat split; try assumption; try lia.
    intros d' Hd'. now replace d' with 0 by lia. }
  destruct (Nat.eqb_spec (nth 2 (shape image) 0) 3) as [E2|E2].
  { right. exists 2. repeat split; try assumption; try lia.
    intros d' Hd'. destruct d' as [|[|d']]; [assumption | assumption | lia]. }
  now left.
Qed.

(** X2: whenever [convert_to_single_channel] changes its input, the input
    has three dimensions and the result has two: it is the slice 0 along
    the first axis of extent 3, and its shape is the shape of the input
    without that axis. *)
Theorem convert_to_single_channel_shape {A : Type} (image : ndarray A) :
  convert_to_single_channel image <> image ->
  ndim image = 3
  /\ ndim (convert_to_single_channel image) = 2
  /\ exists dim, dim < 3 /\ nth dim (shape image) 0 = 3
                 /\ (forall d', d' < dim -> nth d' (shape image) 0 <> 3)
                 /\ convert_to_single_channel image = select dim 0 image
                 /\ shape (convert_to_single_channel image)
                    = remove_axis dim (shape image).
Proof.
  intros Hchanged.
  destruct (convert_to_single_channel_cases image)
    as [Hsame | (dim & Hdim & Hn & Hext & Hfirst & Hsel)]; [contradiction|].
  assert (Hshape : shape (select dim 0 image) = remove_axis dim (shape image))
    by (apply shape_select_0; [lia | rewrite Hext; lia]).
  split; [exact Hn|]. split.
  - rewrite Hsel. unfold ndim in *. rewrite Hshape. unfold remove_axis.
    rewrite length_app, length_firstn, length_skipn. lia.
  - exists dim. repeat split; try assumption. now rewrite Hsel.
Qed.

Lemma convert_to_single_channel_shape_witness :
  ndim (convert_to_single_channel example_image_3d) = 2.
Proof.
  assert (Hchanged : convert_to_single_channel example_image_3d <> example_image_3d)
    by (vm_compute; discriminate).
  exact (proj1 (proj2 (convert_to_single_channel_shape Hchanged))).
Defined.

(** X3: selecting the single channel twice is selecting it once: the result of
    [convert_to_single_channel] is returned unchanged by a second call. *)
Theorem convert_to_single_channel_idempotent {A : Type} (image : ndarray A) :
  convert_to_single_channel (convert_to_single_channel image)
  = convert_to_single_channel image.
Proof.
  destruct (convert_to_single_channel_cases image)
    as [Hsame | (dim & Hdim & Hn & Hext & _ & Hsel)].
  - now rewrite !Hsame.
  - assert (Hshape : shape (select dim 0 image) = remove_axis dim (shape image))
      by (apply shape_select_0; [lia | rewrite Hext; lia]).
    rewrite Hsel. unfold convert_to_single_channel at 1.
    assert (Hnd : ndim (select dim 0 image) = 2).
    { unfold ndim in *. rewrite Hshape. unfold remove_axis.
      rewrite length_app, length_firstn, length_skipn. lia. }
    now rewrite Hnd.
Qed.

(* ================================================================= *)
(** ** The schedule for any number of iterations *)

(** X4: the iterations of [range(num_iter)] that re-project are the multiples
    of 200 from 800 on, below [num_iter]. *)
Theorem reprojections_iff (num_iter j : nat) :
  In j (reprojections num_iter) <-> 800 <= j < num_iter /\ j mod 200 = 0.
Proof.
  unfold reprojections. rewrite filter_In, in_seq.
  assert (K : is_reprojection (step_kind j) = true <-> step_kind j = ReprojectionStep)
    by (destruct (step_kind j); simpl; split; congruence).
  rewrite K, step_kind_reprojection. lia.
Qed.

Lemma div_200_step (n : nat) :
  n / 200 = (n - 1) / 200 + (if (n mod 200 =? 0) && (0 <? n) then 1 else 0).
Proof.
  destruct (Nat.eqb_spec (n mod 200) 0) as [E|E];
    destruct (Nat.ltb_spec 0 n) as [P|P]; cbn [andb].
  - pose proof (Nat.div_mod_eq n 200). pose proof (Nat.div_mod_eq (n - 1) 200).
    pose proof (Nat.mod_upper_bound (n - 1) 200). lia.
  - replace n with 0 by lia. reflexivity.
  - pose proof (Nat.div_mod_eq n 200). pose proof (Nat.div_mod_eq (n - 1) 200).
    pose proof (Nat.mod_upper_bound (n - 1) 200).
    pose proof (Nat.mod_upper_bound n 200). lia.
  - replace n with 0 by lia. reflexivity.
Qed.

(** X5: [optimize] makes [(num_iter - 1) / 200 - 3] re-projections (none up to
    800 iterations, one more for every 200 iterations after that) and a
    gradient step at every other iteration. *)
Theorem schedule_counts (num_iter : nat) :
  length (reprojections num_iter) = (num_iter - 1) / 200 - 3
  /\ length (filter is_gradient (schedule num_iter))
     = num_iter - ((num_iter - 1) / 200 - 3).
Proof.
  induction num_iter as [|n [IHr IHg]].
  - split; reflexivity.
  - unfold reprojections, schedule in *.
    rewrite seq_S, map_app, !filter_app, !length_app, IHr, IHg.
    cbn [map filter Nat.add]. unfold is_gradient.
    replace (S n - 1) with n by lia.
    pose proof (div_200_step n) as Hstep.
    assert (Hle : (n - 1) / 200 - 3 <= n).
    { pose proof (Nat.div_mod_eq (n - 1) 200). lia. }
    assert (H800 : n < 800 -> n / 200 <= 3).
    { intros Hlt. pose proof (Nat.div_mod_eq n 200). lia. }
    assert (H800' : 800 <= n -> 4 <= n / 200).
    { intros Hge. pose proof (Nat.div_mod_eq n 200).
      pose proof (Nat.mod_upper_bound n 200). lia. }
    destruct (step_kind n) eqn:K; cbn [is_reprojection negb length].
    + assert (Hno : n < 800 \/ n mod 200 <> 0).
      { destruct (Nat.lt_ge_cases n 800) as [Hlt|Hge]; [now left|right].
        intros E. assert (R : step_kind n = ReprojectionStep)
          by (apply step_kind_reprojection; now split).
        congruence. }
      destruct (Nat.eqb_spec (n mod 200) 0) as [E|E];
        destruct (Nat.ltb_spec 0 n) as [P|P]; cbn [andb] in Hstep; lia.
    + apply step_kind_reprojection in K. destruct K as [Hge E].
      rewrite E in Hstep. destruct (Nat.ltb_spec 0 n) as [P|P]; [|lia].
      cbn [Nat.eqb andb] in Hstep. lia.
Qed.

(* ================================================================= *)
(** ** What the loop of [optimize] keeps and what it lets lag *)

Section LoopInvariants.
Context {F : Type} {SF : Scalar F} {EX : Externals F} {PR : Prior F}.

Lemma iteration_frame (s : AdamState * Loria F) (j : nat) :
  eccv (snd (iteration s j)) = eccv (snd s)
  /\ ones (snd (iteration s j)) = ones (snd s).
Proof.
  unfold iteration. destruct (step_kind j).
  - unfold gradient_step, closure. cbv zeta.
    destruct (adam_step _ _ _) as [optimizer' params']. split; reflexivity.
  - split; reflexivity.
Qed.

Lemma optimize_loop_frame (n : nat) (s : AdamState * Loria F) :
  eccv (snd (optimize_loop n s)) = eccv (snd s)
  /\ ones (snd (optimize_loop n s)) = ones (snd s).
Proof.
  induction n as [|n [IHe IHo]]; [split; reflexivity|].
  rewrite optimize_loop_S.
  destruct (iteration_frame (optimize_loop n s) n) as [He Ho].
  split; congruence.
Qed.

(** X6: [optimize] never touches what preprocessing computed (the luminances,
    the distribution, the decoded means) nor [self.ones]: it only moves the
    weights, the stored output and the target. *)
Theorem optimize_frame (self : Loria F) (lr : F) (num_iter : nat) :
  eccv (optimize self lr num_iter) = eccv self
  /\ ones (optimize self lr num_iter) = ones self.
Proof. unfold optimize. apply (optimize_loop_frame num_iter (adam_init lr, self)). Qed.

(** The overwrite of channel 0 that follows [projection_chrom] in
    [optimize] changes nothing: [projection_chrom] has already stored that
    luminance. *)
Lemma assign_luminance_projection (self : Loria F) (x : Tensor3 F) :
  assign 0 (div100 (luminance_64 (eccv self))) (projection_chrom self x)
  = projection_chrom self x.
Proof. unfold projection_chrom. cbv zeta. reflexivity. Qed.

Lemma previous_iteration_gradient (j : nat) :
  step_kind j = ReprojectionStep -> step_kind (j - 1) = GradientStep /\ 0 < j.
Proof.
  intros K. apply step_kind_reprojection in K. destruct K as [Hge E].
  split; [|lia]. apply step_kind_gradient. right.
  pose proof (Nat.div_mod_eq j 200). pose proof (Nat.div_mod_eq (j - 1) 200).
  pose proof (Nat.mod_upper_bound (j - 1) 200). lia.
Qed.

(** X7: the stored output lags one optimizer step behind the weights: a
    gradient iteration stores the output of the network for the weights it
    starts from and then updates them; a re-projection iteration keeps
    output and weights. *)
Theorem stored_output_lags (s0 : AdamState * Loria F) (j : nat) :
  (step_kind j = GradientStep ->
     out (snd (optimize_loop (S j) s0))
     = dip_net (dip_params (snd (optimize_loop j s0))))
  /\ (step_kind j = ReprojectionStep ->
     out (snd (optimize_loop (S j) s0)) = out (snd (optimize_loop j s0))
     /\ dip_params (snd (optimize_loop (S j) s0))
        = dip_params (snd (optimize_loop j s0))).
Proof.
  rewrite optimize_loop_S. unfold iteration. split; intros K; rewrite K.
  - apply gradient_step_out.
  - split; reflexivity.
Qed.

(** X8: a re-projection at iteration [j] installs as target exactly the
    palette projection of the downsampled output that iteration [j - 1]
    computed, from the weights that iteration started with (not from the
    weights in use at [j]). *)
Theorem reprojection_uses_previous_output (s0 : AdamState * Loria F) (j : nat) :
  step_kind j = ReprojectionStep ->
  target_dip (snd (optimize_loop (S j) s0))
  = projection_chrom (snd (optimize_loop j s0))
      (downsampler (dip_net (dip_params (snd (optimize_loop (j - 1) s0))))).
Proof.
  intros K. destruct (@previous_iteration_gradient j K) as [Kprev Hpos].
  rewrite optimize_loop_S. unfold iteration. rewrite K.
  unfold reprojection_step. cbn [snd target_dip with_target].
  rewrite assign_luminance_projection.
  replace j with (S (j - 1)) at 2 by lia.
  rewrite optimize_loop_S. unfold iteration. rewrite Kprev.
  now rewrite gradient_step_out.
Qed.

(** X9: whatever the image, the initial weights, the learning rate and the
    number of iterations, the target [optimize] leaves has three channels
    and its channel 0 is [luminance_64 / 100]. *)
Theorem target_luminance_invariant
        (black_image : ndarray F) (net0 : Params) (lr : F) (num_iter : nat) :
  let self := optimize (Loria_init black_image net0) lr num_iter in
  length (target_dip self) = 3
  /\ nth 0 (target_dip self) [] = div100 (luminance_64 (ECCVImage_init black_image)).
Proof.
  cbv zeta. unfold optimize.
  set (s0 := (adam_init lr, Loria_init black_image net0)).
  assert (Inv : forall n,
             eccv (snd (optimize_loop n s0)) = ECCVImage_init black_image
             /\ length (target_dip (snd (optimize_loop n s0))) = 3
             /\ nth 0 (target_dip (snd (optimize_loop n s0))) []
                = div100 (luminance_64 (ECCVImage_init black_image))).
  { induction n as [|n (IHe & IHl & IH0)].
    - repeat split.
    - rewrite optimize_loop_S. unfold iteration. destruct (step_kind n).
      + rewrite gradient_step_target.
        destruct (iteration_frame (optimize_loop n s0) 0) as [He _].
        unfold iteration in He. change (step_kind 0) with GradientStep in He.
        split; [|split; assumption].
        unfold gradient_step, closure. cbv zeta.
        destruct (adam_step _ _ _) as [optimizer' params']. exact IHe.
      + unfold reprojection_step. cbn [snd target_dip with_target eccv].
        rewrite assign_luminance_projection, IHe.
        unfold projection_chrom. cbv zeta. rewrite IHe. repeat split. }
  destruct (Inv num_iter) as (_ & Hl & H0). now split.
Qed.
End LoopInvariants.

Lemma stored_output_lags_witness :
  out (snd (optimize_loop 1 example_state))
  = dip_net (dip_params (snd (optimize_loop 0 example_state))).
Proof.
  assert (K : step_kind 0 = GradientStep) by reflexivity.
  exact (proj1 (stored_output_lags example_state 0) K).
Defined.

Lemma reprojection_uses_previous_output_witness :
  target_dip (snd (optimize_loop 801 example_state))
  = projection_chrom (snd (optimize_loop 800 example_state))
      (downsampler (dip_net (dip_params (snd (optimize_loop 799 example_state))))).
Proof.
  assert (K : step_kind 800 = ReprojectionStep) by reflexivity.
  exact (@reprojection_uses_previous_output Qc Qc_scalar example_externals example_prior
           example_state 800 K).
Defined.

(* ================================================================= *)
(** ** Targets on the palette *)

Lemma map2d_is_map {A B : Type} (f : A -> B) (h w : nat) (m : list (list A)) :
  is_map h w m -> is_map h w (map2d f m).
Proof.
  intros [Hh Hw]. split.
  - unfold map2d. now rewrite length_map.
  - unfold map2d. apply Forall_forall. intros row Hrow.
    apply in_map_iff in Hrow. destruct Hrow as [row' [<- Hin]].
    rewrite length_map. rewrite Forall_forall in Hw. now apply Hw.
Qed.

Lemma planes_ext {A : Type} (a b b' c c' : A) :
  b = b' -> c = c' -> [a; b; c] = [a; b'; c'].
Proof. now intros -> ->. Qed.

Section OnPalette.
Context {F : Type} {SF : Scalar F} {EX : Externals F} {PR : Prior F}.
Context {LF : ScalarLaws F}.

Lemma on_palette_eccv (self self' : Loria F) (t : Tensor3 F) :
  eccv self = eccv self' -> on_palette self t -> on_palette self' t.
Proof.
  intros He (idx & Hidx & ->). exists idx. split; [exact Hidx|].
  unfold palette_image. now rewrite He.
Qed.

Lemma projection_chrom_on_palette (self : Loria F) (x : Tensor3 F) :
  ones self = ones_313 ->
  length COEFS = 313 ->
  is_map 64 64 (nth 1 x []) ->
  is_map 64 64 (nth 2 x []) ->
  on_palette self (projection_chrom self x).
Proof.
  intros Hones Hc HA HB.
  exists (fun h w => nearest_bin palette_on_ones (pixel_ab x h w)). split.
  - intros h w _ _. now apply nearest_bin_bound.
  - rewrite (projection_chrom_entries self x Hones Hc HA HB).
    unfold palette_image. apply planes_ext;
      apply tabulate2_ext; intros h w _ _;
      now rewrite fmul_1_r, ?nth_map_fst, ?nth_map_snd.
Qed.

Lemma pixel_ab_palette_image (self : Loria F) (idx : nat -> nat -> nat) (h w : nat) :
  h < 64 -> w < 64 ->
  pixel_ab (palette_image self idx) h w = nth (idx h w) coefs_to_128 (flit 0, flit 0).
Proof.
  intros Hh Hw. unfold pixel_ab, palette_image. cbn [nth].
  rewrite !at2_tabulate2 by assumption.
  now destruct (nth (idx h w) coefs_to_128 (flit 0, flit 0)).
Qed.

Lemma on_palette_fixed (self : Loria F) (t : Tensor3 F) :
  ones self = ones_313 ->
  length COEFS = 313 ->
  on_palette self t ->
  projection_chrom self t = t.
Proof.
  intros Hones Hc (idx & Hidx & ->).
  assert (Hlen : length coefs_to_128 = 313) by now rewrite coefs_to_128_length.
  rewrite (projection_chrom_entries self _ Hones Hc)
    by (unfold palette_image; cbn [nth]; apply tabulate2_is_map).
  unfold palette_image at 3. apply planes_ext;
    apply tabulate2_ext; intros h w Hh Hw;
    rewrite pixel_ab_palette_image by assumption;
    rewrite palette_on_ones_eq, fmul_1_r;
    (rewrite nth_map_fst || rewrite nth_map_snd);
    rewrite nearest_bin_of_entry by (rewrite Hlen; now apply Hidx);
    reflexivity.
Qed.

Lemma initial_target_on_palette (black_image : ndarray F) (net0 : Params) :
  is_tensor 313 64 64 (proba_distrib (ECCVImage_init black_image)) ->
  length COEFS = 313 ->
  on_palette (Loria_init black_image net0) (target_dip (Loria_init black_image net0)).
Proof.
  intros Hproba Hc.
  exists (fun h w =>
            argmax (pixel_column (proba_distrib (ECCVImage_init black_image)) h w)).
  split.
  - intros h w _ _.
    assert (Hlen : length (pixel_column (proba_distrib (ECCVImage_init black_image)) h w)
                   = 313)
      by (rewrite pixel_column_length; apply Hproba).
    assert (Hb : argmax (pixel_column (proba_distrib (ECCVImage_init black_image)) h w)
                 < length (pixel_column (proba_distrib (ECCVImage_init black_image)) h w)).
    { apply argmax_bound. intros E. rewrite E in Hlen. discriminate Hlen. }
    now rewrite Hlen in Hb.
  - change (target_dip (Loria_init black_image net0))
      with (get_initialized_image (ECCVImage_init black_image) ones_313).
    rewrite (get_initialized_image_entries _ Hproba Hc).
    unfold palette_image.
    change (eccv (Loria_init black_image net0)) with (ECCVImage_init black_image).
    apply planes_ext;
      apply tabulate2_ext; intros h w _ _;
      now rewrite fmul_1_r, ?nth_map_fst, ?nth_map_snd.
Qed.

(** X10: the target [__init__] builds is already a projected image:
    [projection_chrom] returns it as it is. *)
Theorem initial_target_projection_fixed (black_image : ndarray F) (net0 : Params) :
  is_tensor 313 64 64 (proba_distrib (ECCVImage_init black_image)) ->
  length COEFS = 313 ->
  projection_chrom (Loria_init black_image net0)
                   (target_dip (Loria_init black_image net0))
  = target_dip (Loria_init black_image net0).
Proof.
  intros Hproba Hc. apply on_palette_fixed; [reflexivity | exact Hc |].
  now apply initial_target_on_palette.
Qed.

(** X11: a pixel whose (a, b) pair is a palette entry keeps that pair under
    [projection_chrom], whatever the other pixels are. *)
Theorem projection_chrom_keeps_palette_pixel
        (self : Loria F) (x : Tensor3 F) (h w k : nat) :
  ones self = ones_313 ->
  length COEFS = 313 ->
  is_map 64 64 (nth 1 x []) ->
  is_map 64 64 (nth 2 x []) ->
  h < 64 -> w < 64 -> k < 313 ->
  pixel_ab x h w = nth k coefs_to_128 (flit 0, flit 0) ->
  pixel_ab (projection_chrom self x) h w = pixel_ab x h w.
Proof.
  intros Hones Hc HA HB Hh Hw Hk Hpx.
  assert (Hlen : length coefs_to_128 = 313) by now rewrite coefs_to_128_length.
  rewrite (projection_chrom_entries self x Hones Hc HA HB).
  unfold pixel_ab at 1. cbn [nth]. rewrite !at2_tabulate2 by assumption.
  rewrite palette_on_ones_eq, !fmul_1_r, nth_map_fst, nth_map_snd, Hpx.
  rewrite nearest_bin_of_entry by now rewrite Hlen.
  now destruct (nth k coefs_to_128 (flit 0, flit 0)).
Qed.

(** X12: at every stage of [optimize] the target is an image on the palette:
    each of its pixels carries the (a, b) pair of one of the 313 entries,
    and [projection_chrom] would return it unchanged. *)
Theorem target_always_on_palette
        (black_image : ndarray F) (net0 : Params) (lr : F) (num_iter : nat) :
  is_tensor 313 64 64 (proba_distrib (ECCVImage_init black_image)) ->
  length COEFS = 313 ->
  (forall p, is_tensor 3 64 64 (downsampler (dip_net p))) ->
  let self := optimize (Loria_init black_image net0) lr num_iter in
  projection_chrom self (target_dip self) = target_dip self
  /\ (forall h w, h < 64 -> w < 64 ->
        exists k, k < 313
                  /\ pixel_ab (target_dip self) h w
                     = nth k coefs_to_128 (flit 0, flit 0)).
Proof.
  intros Hproba Hc Hdown. cbv zeta. unfold optimize.
  set (s0 := (adam_init lr, Loria_init black_image net0)).
  assert (Inv : forall n,
             ones (snd (optimize_loop n s0)) = ones_313
             /\ on_palette (snd (optimize_loop n s0))
                           (target_dip (snd (optimize_loop n s0)))).
  { intros n.
    destruct (optimize_loop_frame n s0) as [He Ho].
    split; [rewrite Ho; reflexivity|].
    induction n as [|n IH].
    - now apply initial_target_on_palette.
    - destruct (optimize_loop_frame n s0) as [He' Ho'].
      specialize (IH He' Ho').
      apply on_palette_eccv with (snd (optimize_loop n s0)); [congruence|].
      rewrite optimize_loop_S. unfold iteration. destruct (step_kind n) eqn:K.
      + now rewrite gradient_step_target.
      + apply step_kind_reprojection in K. destruct K as [Hge _].
        destruct (@optimize_loop_out F SF EX PR n s0) as [p Hp]; [lia|].
        unfold reprojection_step. cbn [snd target_dip with_target].
        rewrite assign_luminance_projection, Hp.
        apply projection_chrom_on_palette.
        * rewrite Ho'. reflexivity.
        * exact Hc.
        * destruct (Hdown p) as [Hl Hm].
          rewrite Forall_forall in Hm. apply Hm, nth_In.
          apply Nat.lt_le_trans with 3;
            [lia | apply Nat.eq_le_incl; symmetry; exact Hl].
        * destruct (Hdown p) as [Hl Hm].
          rewrite Forall_forall in Hm. apply Hm, nth_In.
          apply Nat.lt_le_trans with 3;
            [lia | apply Nat.eq_le_incl; symmetry; exact Hl]. }
  destruct (Inv num_iter) as [Hones Hpal]. split.
  - now apply on_palette_fixed.
  - intros h w Hh Hw. destruct Hpal as (idx & Hidx & Ht).
    exists (idx h w). split; [now apply Hidx|].
    rewrite Ht. now apply pixel_ab_palette_image.
Qed.
End OnPalette.

Lemma initial_target_projection_fixed_witness :
  projection_chrom example_loria (target_dip example_loria) = target_dip example_loria.
Proof.
  exact (@initial_target_projection_fixed Qc Qc_scalar example_externals example_prior
           Qc_laws example_image (Q2Qc (1 # 2))
           example_eccv_proba_shape example_COEFS_length).
Defined.

Lemma example_lab_64_pixel :
  pixel_ab example_lab_64 3 5
  = nth 156 (@coefs_to_128 Qc Qc_scalar example_externals) (flit 0, flit 0).
Proof.
  apply injective_projections; apply Qc_is_canon; vm_compute; reflexivity.
Qed.

Lemma projection_chrom_keeps_palette_pixel_witness :
  pixel_ab (projection_chrom example_loria example_lab_64) 3 5
  = pixel_ab example_lab_64 3 5.
Proof.
  assert (H3 : 3 < 64) by lia. assert (H5 : 5 < 64) by lia.
  assert (Hk : 156 < 313) by lia.
  assert (H1 : 1 < 3) by lia. assert (H2 : 2 < 3) by lia.
  exact (@projection_chrom_keeps_palette_pixel Qc Qc_scalar example_externals
           example_prior Qc_laws example_loria example_lab_64 3 5 156
           eq_refl example_COEFS_length
           (tensor_channel example_lab_64_shape H1)
           (tensor_channel example_lab_64_shape H2)
           H3 H5 Hk example_lab_64_pixel).
Defined.

Lemma example_downsampler_shape (p : Qc) :
  is_tensor 3 64 64 (downsampler (@dip_net Qc example_prior p)).
Proof.
  unfold downsampler, example_externals, dip_net, example_prior.
  split; [now rewrite length_map, repeat_length|].
  apply Forall_forall. intros plane Hplane.
  apply in_map_iff in Hplane. destruct Hplane as [src [<- _]].
  apply tabulate2_is_map.
Qed.

Lemma target_always_on_palette_witness :
  projection_chrom
    (optimize example_loria (Q2Qc (1 # 100)) 1000)
    (target_dip (optimize example_loria (Q2Qc (1 # 100)) 1000))
  = target_dip (optimize example_loria (Q2Qc (1 # 100)) 1000).
Proof.
  exact (proj1 (@target_always_on_palette Qc Qc_scalar example_externals example_prior
                  Qc_laws example_image (Q2Qc (1 # 2)) (Q2Qc (1 # 100)) 1000
                  example_eccv_proba_shape example_COEFS_length
                  example_downsampler_shape)).
Defined.

(* ================================================================= *)
(** ** The luminances of [ECCVImage.__init__] *)

Section Luminance.
Context {F : Type} {SF : Scalar F} {EX : Externals F}.

Lemma fclip_range (lo hi x : F) :
  (forall y : F, fltb y y = false) ->
  fltb hi lo = false ->
  fltb (fclip lo hi x) lo = false /\ fltb hi (fclip lo hi x) = false.
Proof.
  intros Hirr Hlohi. unfold fclip.
  destruct (fltb x lo) eqn:Hx.
  - rewrite Hlohi. split; [apply Hirr | exact Hlohi].
  - destruct (fltb hi x) eqn:Hhx.
    + split; [exact Hlohi | apply Hirr].
    + split; assumption.
Qed.

Lemma fclip_inside (lo hi x : F) :
  fltb x lo = false -> fltb hi x = false -> fclip lo hi x = x.
Proof. intros Hlo Hhi. unfold fclip. now rewrite Hlo, Hhi. Qed.

Lemma Forall_flatten2_map2d (P : F -> Prop) (f : F -> F) (m : Map2 F) :
  (forall x, P (f x)) -> Forall P (flatten2 (map2d f m)).
Proof.
  intros Hf. unfold flatten2, map2d. apply Forall_forall. intros y Hy.
  apply in_concat in Hy. destruct Hy as [row [Hrow Hy]].
  apply in_map_iff in Hrow. destruct Hrow as [row' [<- _]].
  apply in_map_iff in Hy. destruct Hy as [x [<- _]]. apply Hf.
Qed.

(** X13: whatever the image and whatever [resize_image] returns, no entry of
    [luminance_256] or [luminance_64] is below 0 or above 100. *)
Theorem luminance_clipped (black_image : ndarray F) :
  (forall y : F, fltb y y = false) ->
  fltb (flit 100) (flit 0) = false ->
  let in_range := fun x : F => fltb x (flit 0) = false /\ fltb (flit 100) x = false in
  Forall in_range (flatten2 (luminance_256 (ECCVImage_init black_image)))
  /\ Forall in_range (flatten2 (luminance_64 (ECCVImage_init black_image))).
Proof.
  intros Hirr H100 in_range. unfold ECCVImage_init, process_eccv.
  cbn [luminance_256 luminance_64].
  split; apply Forall_flatten2_map2d; intros x; now apply fclip_range.
Qed.

(** X14: clipping leaves a resized image alone when all its entries already lie
    between 0 and 100: [luminance_256] is then the resized, rescaled image
    itself. *)
Theorem luminance_256_unclipped (black_image : ndarray F) :
  let resized :=
    resize_image
      (ndmap (fun x => fmul x (flit (100 # 255))) (convert_to_single_channel black_image))
      (256, 256) in
  Forall (Forall (fun x => fltb x (flit 0) = false /\ fltb (flit 100) x = false)) resized ->
  luminance_256 (ECCVImage_init black_image) = resized.
Proof.
  intros resized Hin. unfold ECCVImage_init, process_eccv. cbn [luminance_256].
  fold resized. unfold map2d. rewrite <- (map_id resized) at 2.
  apply map_ext_in. intros row Hrow. rewrite <- (map_id row) at 2.
  apply map_ext_in. intros x Hx.
  rewrite Forall_forall in Hin. specialize (Hin row Hrow).
  rewrite Forall_forall in Hin. destruct (Hin x Hx) as [Hlo Hhi].
  now apply fclip_inside.
Qed.
End Luminance.

Lemma luminance_clipped_witness :
  Forall (fun x : Qc => fltb x (flit 0) = false /\ fltb (flit 100) x = false)
         (flatten2 (luminance_256 (ECCVImage_init example_image))).
Proof.
  exact (proj1 (@luminance_clipped Qc Qc_scalar example_externals example_image
                  fltb_irrefl eq_refl)).
Defined.

Lemma example_resized_in_range :
  Forall (Forall (fun x : Qc => fltb x (flit 0) = false /\ fltb (flit 100) x = false))
         (resize_image
            (ndmap (fun x => fmul x (flit (100 # 255)))
                   (convert_to_single_channel example_image))
            (256, 256)).
Proof.
  unfold resize_image, example_externals. cbn [fst snd]. unfold full.
  apply Forall_forall. intros row Hrow. apply repeat_spec in Hrow. subst row.
  apply Forall_forall. intros x Hx. apply repeat_spec in Hx. subst x.
  split; vm_compute; reflexivity.
Qed.

Lemma luminance_256_unclipped_witness :
  luminance_256 (ECCVImage_init example_image)
  = resize_image
      (ndmap (fun x => fmul x (flit (100 # 255))) (convert_to_single_channel example_image))
      (256, 256).
Proof.
  exact (@luminance_256_unclipped Qc Qc_scalar example_externals example_image
           example_resized_in_range).
Defined.

(* ================================================================= *)
(** ** The coupled total variation at its extremes *)

Lemma flat_map_repeat {A B : Type} (x : B) (m : nat) (l : list A) :
  flat_map (fun _ => repeat x m) l = repeat x (length l * m).
Proof.
  induction l as [|a l IH]; simpl; [reflexivity|].
  now rewrite IH, repeat_app.
Qed.

Lemma flat_map_const_grid {B : Type} (x : B) (h w : nat) :
  flat_map (fun _ : nat => map (fun _ : nat => x) (seq 0 w)) (seq 0 h) = repeat x (h * w).
Proof.
  replace (h * w) with (length (seq 0 h) * w) by now rewrite length_seq.
  rewrite <- flat_map_repeat.
  apply flat_map_ext. intros i. now rewrite map_const, length_seq.
Qed.

Lemma flat_map_all_nil {A B : Type} (f : A -> list B) (l : list A) :
  (forall x, f x = []) -> flat_map f l = [].
Proof.
  intros Hf. induction l as [|a l IH]; simpl; [reflexivity|].
  now rewrite Hf, IH.
Qed.

Section TotalVariation.
Context {F : Type} {SF : Scalar F} {EX : Externals F} {PR : Prior F}.

(** X15: on a constant luminance and constant chrominance channels of
    size H x W the coupled total variation is [5e-6] times the sum of
    [channels * (H - 1) * (W - 1)] copies of [sqrt(epsilon)]: every entry
    of the cropped maps contributes [sqrt(epsilon)], the differences
    contributing nothing. *)
Theorem tv_c_constant (H W : nat) (l : F) (values : list F) (gamma : F) :
  (forall x : F, fsub x x = flit 0) ->
  (forall x : F, fmul x (flit 0) = flit 0) ->
  (forall x : F, fadd x (flit 0) = x) ->
  tv_c (full H W l) (map (full H W) values) gamma
  = fmul (flit (5 # 1000000))
         (fsum (repeat (fsqrt (flit (1 # 100000)))
                       (length values * ((H - 1) * (W - 1))))).
Proof.
  intros Hsub Hmul Hadd.
  rewrite full_tabulate2.
  replace (map (full H W) values)
    with (map (tabulate2 H W) (map (fun (v : F) (_ _ : nat) => v) values))
    by (rewrite map_map; apply map_ext; intros v; symmetry; apply full_tabulate2).
  rewrite tv_c_tabulate, flat_map_map. f_equal. f_equal.
  rewrite <- (@flat_map_repeat F F (fsqrt (flit (1 # 100000))) ((H - 1) * (W - 1)) values).
  apply flat_map_ext. intros v.
  rewrite <- (flat_map_const_grid (fsqrt (flit (1 # 100000))) (H - 1) (W - 1)).
  apply flat_map_ext. intros i. apply map_ext. intros j. unfold fpow2.
  now rewrite !Hsub, !Hmul, !Hadd.
Qed.

(** X16: on maps with a single row or a single column (or none) there is no
    pair of neighbours in both directions and the coupled total variation
    is the scaled empty sum. *)
Theorem tv_c_degenerate (H W : nat) (lum : Map2 F) (ab : Tensor3 F) (gamma : F) :
  H <= 1 \/ W <= 1 ->
  is_map H W lum ->
  Forall (is_map H W) ab ->
  tv_c lum ab gamma = fmul (flit (5 # 1000000)) (flit 0).
Proof.
  intros Hdeg Hlum Hab.
  assert (Eab : ab = map (tabulate2 H W) (map (at2 (flit 0)) ab)).
  { rewrite map_map. rewrite <- (map_id ab) at 1.
    apply map_ext_in. intros ch Hch. rewrite Forall_forall in Hab.
    now apply tabulate2_of_map, Hab. }
  rewrite (tabulate2_of_map (flit 0) Hlum), Eab, tv_c_tabulate.
  f_equal.
  match goal with
  | |- fsum ?l = _ => assert (Hnil : l = []); [|now rewrite Hnil]
  end.
  apply flat_map_all_nil. intros A.
  destruct Hdeg as [HH|HW].
  - replace (H - 1) with 0 by lia. reflexivity.
  - replace (W - 1) with 0 by lia.
    apply flat_map_all_nil. intros i. reflexivity.
Qed.
End TotalVariation.

Lemma tv_c_constant_witness :
  tv_c (full 4 5 (Q2Qc (1 # 2))) (map (full 4 5) [Q2Qc (1 # 3); Q2Qc (2 # 3)]) (flit 100)
  = fmul (flit (5 # 1000000)) (fsum (repeat (fsqrt (flit (1 # 100000))) (2 * (3 * 4)))).
Proof.
  exact (@tv_c_constant Qc Qc_scalar example_externals 4 5 (Q2Qc (1 # 2))
           [Q2Qc (1 # 3); Q2Qc (2 # 3)] (flit 100)
           Qcplus_opp_r Qcmult_0_r Qcplus_0_r).
Defined.

Lemma tv_c_degenerate_witness :
  tv_c (full 1 3 (Q2Qc (1 # 2))) [full 1 3 (Q2Qc (1 # 3)); full 1 3 (Q2Qc (2 # 3))]
       (flit 100)
  = fmul (flit (5 # 1000000)) (flit 0).
Proof.
  apply (@tv_c_degenerate Qc Qc_scalar example_externals 1 3).
  - left. lia.
  - apply full_is_map.
  - repeat apply Forall_cons; try apply Forall_nil; apply full_is_map.
Defined.

(* ================================================================= *)
(** ** Shapes *)

Section Shapes.
Context {F : Type} {SF : Scalar F} {EX : Externals F} {PR : Prior F}.

Lemma three_planes_tensor (h w : nat) (a b c : Map2 F) :
  is_map h w a -> is_map h w b -> is_map h w c -> is_tensor 3 h w [a; b; c].
Proof.
  intros Ha Hb Hc. split; [reflexivity|].
  apply Forall_cons; [exact Ha|]. apply Forall_cons; [exact Hb|].
  apply Forall_cons; [exact Hc|]. apply Forall_nil.
Qed.

(** X17: [projection_chrom] returns a 3 x 64 x 64 image (so its result can be
    projected again, or compared with a downsampled output), whatever
    channel 0 of its argument is. *)
Theorem projection_chrom_shape (self : Loria F) (x : Tensor3 F) :
  ones self = ones_313 ->
  length COEFS = 313 ->
  is_map 64 64 (luminance_64 (eccv self)) ->
  is_map 64 64 (nth 1 x []) ->
  is_map 64 64 (nth 2 x []) ->
  is_tensor 3 64 64 (projection_chrom self x).
Proof.
  intros Hones Hc Hlum HA HB.
  rewrite (projection_chrom_entries self x Hones Hc HA HB).
  apply three_planes_tensor;
    [now apply map2d_is_map | apply tabulate2_is_map | apply tabulate2_is_map].
Qed.

(** X18: the target [__init__] builds is a 3 x 64 x 64 image. *)
Theorem initial_target_shape (e : ECCVImage F) :
  is_tensor 313 64 64 (proba_distrib e) ->
  length COEFS = 313 ->
  is_map 64 64 (luminance_64 e) ->
  is_tensor 3 64 64 (get_initialized_image e ones_313).
Proof.
  intros Hproba Hc Hlum.
  rewrite (get_initialized_image_entries e Hproba Hc).
  apply three_planes_tensor;
    [now apply map2d_is_map | apply tabulate2_is_map | apply tabulate2_is_map].
Qed.

Lemma chrom_mean_plane (proba : Tensor3 F) (column : F * F -> F) :
  is_tensor 313 64 64 proba ->
  length COEFS = 313 ->
  is_map 64 64
    (sum_axis0
       (map (map2d unnormalize_ab)
            (zip_with (fun plane row => map2d (fun p => fmul p (column row)) plane)
                      proba COEFS))).
Proof.
  intros Hproba Hc.
  rewrite (tensor_tabulate (flit 0) Hproba).
  rewrite (tabulate_of_list COEFS (flit 0, flit 0)), Hc.
  rewrite zip_with_tabulate, map_tabulate.
  replace (tabulate 313
             (fun i =>
                map2d unnormalize_ab
                  (map2d (fun p => fmul p (column (nth i COEFS (flit 0, flit 0))))
                         (tabulate2 64 64 (at2 (flit 0) (nth i proba []))))))
    with (tabulate 313
            (fun i =>
               tabulate2 64 64
                 (fun h w =>
                    unnormalize_ab
                      (fmul (at2 (flit 0) (nth i proba []) h w)
                            (column (nth i COEFS (flit 0, flit 0)))))))
    by (apply tabulate_ext; intros i _; now rewrite !map2d_tabulate2).
  rewrite (@sum_axis0_tabulate F SF 313 64 64) by lia.
  apply tabulate2_is_map.
Qed.

(** X19: the low-resolution LAB estimate is a 3 x 64 x 64 image whose channel 0
    is [luminance_64]: the decoded mean has exactly the two chrominance
    channels. *)
Theorem lab_mean_64_shape (bw : ndarray F) (lum256 lum64 : Map2 F) :
  is_tensor 313 64 64 (colorizer lum256) ->
  length COEFS = 313 ->
  is_map 64 64 lum64 ->
  is_tensor 3 64 64 (lab_mean_64 (process_eccv bw lum256 lum64))
  /\ nth 0 (lab_mean_64 (process_eccv bw lum256 lum64)) [] = lum64
  /\ length (chrom_mean_unnorm (process_eccv bw lum256 lum64)) = 2.
Proof.
  intros Hproba Hc Hlum. unfold process_eccv.
  cbn [lab_mean_64 chrom_mean_unnorm]. unfold einsum_abcd_bn_nbcd. cbn [map].
  split; [|split; reflexivity].
  apply three_planes_tensor; [exact Hlum | |]; now apply chrom_mean_plane.
Qed.
End Shapes.

Lemma example_luminance_64_shape : is_map 64 64 (luminance_64 (eccv example_loria)).
Proof.
  unfold example_loria, Loria_init, ECCVImage_init, process_eccv.
  cbn [eccv luminance_64]. unfold resize_image, example_externals. cbn [fst snd].
  rewrite full_tabulate2, map2d_tabulate2. apply tabulate2_is_map.
Qed.

Lemma projection_chrom_shape_witness :
  is_tensor 3 64 64 (projection_chrom example_loria example_lab_64).
Proof.
  assert (H1 : 1 < 3) by lia. assert (H2 : 2 < 3) by lia.
  exact (@projection_chrom_shape Qc Qc_scalar example_externals example_prior
           example_loria example_lab_64 eq_refl example_COEFS_length
           example_luminance_64_shape
           (tensor_channel example_lab_64_shape H1)
           (tensor_channel example_lab_64_shape H2)).
Defined.

Lemma initial_target_shape_witness :
  is_tensor 3 64 64 (get_initialized_image (eccv example_loria) ones_313).
Proof.
  exact (@initial_target_shape Qc Qc_scalar example_externals
           (eccv example_loria) example_eccv_proba_shape example_COEFS_length
           example_luminance_64_shape).
Defined.

Lemma lab_mean_64_shape_witness :
  is_tensor 3 64 64
    (lab_mean_64 (process_eccv example_image (full 256 256 (Q2Qc 50))
                               (full 64 64 (Q2Qc 50)))).
Proof.
  exact (proj1 (@lab_mean_64_shape Qc Qc_scalar example_externals example_image
                  (full 256 256 (Q2Qc 50)) (full 64 64 (Q2Qc 50))
                  (example_proba_shape _) example_COEFS_length
                  (full_is_map 64 64 (Q2Qc 50)))).
Defined.

(* ================================================================= *)
(** ** The mode of the predicted distribution *)

Section Mode.
Context {F : Type} {SF : Scalar F} {EX : Externals F} {PR : Prior F}.
Context {LF : ScalarLaws F}.

Lemma argmax_from_spec (d : F) (l pre : list F) (best : nat) :
  best < length pre ->
  (forall i, i < length pre -> fltb (nth best pre d) (nth i pre d) = false) ->
  (forall i, i < best -> fltb (nth i pre d) (nth best pre d) = true) ->
  let m := argmax_from best (nth best pre d) (length pre) l in
  m < length (pre ++ l)
  /\ (forall i, i < length (pre ++ l) ->
                fltb (nth m (pre ++ l) d) (nth i (pre ++ l) d) = false)
  /\ (forall i, i < m -> fltb (nth i (pre ++ l) d) (nth m (pre ++ l) d) = true).
Proof.
  revert pre best. induction l as [|x l IH]; intros pre best Hb Hmax Hfirst; simpl.
  - rewrite app_nil_r. auto.
  - assert (Hx : nth (length pre) (pre ++ [x]) d = x)
      by (rewrite app_nth2, Nat.sub_diag by lia; reflexivity).
    assert (Hpre : forall i, i < length pre -> nth i (pre ++ [x]) d = nth i pre d)
      by (intros i Hi; now apply app_nth1).
    assert (Hlen : length (pre ++ [x]) = S (length pre))
      by (rewrite length_app; simpl; lia).
    replace (pre ++ x :: l) with ((pre ++ [x]) ++ l)
      by (rewrite <- app_assoc; reflexivity).
    destruct (fltb (nth best pre d) x) eqn:Hlt.
    + specialize (IH (pre ++ [x]) (length pre)).
      rewrite Hx, Hlen in IH. apply IH.
      * lia.
      * intros i Hi. destruct (Nat.eq_dec i (length pre)) as [->|Hne].
        -- rewrite Hx. apply fltb_irrefl.
        -- rewrite Hpre by lia.
           destruct (fltb x (nth i pre d)) eqn:Hxi; [|reflexivity].
           rewrite <- (Hmax i) by lia. symmetry.
           now apply fltb_trans with x.
      * intros i Hi. rewrite Hpre by lia.
        destruct (fltb_cotrans _ _ (nth i pre d) Hlt) as [Hbad|Hgood];
          [|exact Hgood].
        rewrite Hmax in Hbad by lia. discriminate Hbad.
    + specialize (IH (pre ++ [x]) best).
      rewrite Hpre, Hlen in IH by lia. apply IH.
      * lia.
      * intros i Hi. destruct (Nat.eq_dec i (length pre)) as [->|Hne].
        -- now rewrite Hx.
        -- rewrite Hpre by lia. apply Hmax. lia.
      * intros i Hi. rewrite Hpre by lia. now apply Hfirst.
Qed.

(** [argmax] returns an index at which the entry is greatest, and the
    lowest such index. *)
Lemma argmax_spec (d : F) (l : list F) :
  l <> [] ->
  argmax l < length l
  /\ (forall i, i < length l -> fltb (nth (argmax l) l d) (nth i l d) = false)
  /\ (forall i, i < argmax l -> fltb (nth i l d) (nth (argmax l) l d) = true).
Proof.
  destruct l as [|x l]; [congruence|]. intros _.
  apply (@argmax_from_spec d l [x] 0).
  - simpl. lia.
  - intros i Hi. simpl in Hi. replace i with 0 by lia. apply fltb_irrefl.
  - intros i Hi. lia.
Qed.

Lemma initial_target_bin_is_mode_aux (e : ECCVImage F) (h w : nat) :
  is_tensor 313 64 64 (proba_distrib e) ->
  length COEFS = 313 ->
  h < 64 -> w < 64 ->
  let proba := fun k => at2 (flit 0) (nth k (proba_distrib e) []) h w in
  exists bin,
    bin < 313
    /\ pixel_ab (get_initialized_image e ones_313) h w
       = nth bin coefs_to_128 (flit 0, flit 0)
    /\ (forall k, k < 313 -> fltb (proba bin) (proba k) = false)
    /\ (forall k, k < bin -> fltb (proba k) (proba bin) = true).
Proof.
  intros Hproba Hc Hh Hw proba.
  set (col := pixel_column (proba_distrib e) h w).
  assert (Hlen : length col = 313)
    by (unfold col; rewrite pixel_column_length; apply Hproba).
  assert (Hne : col <> []) by (intros E; rewrite E in Hlen; discriminate Hlen).
  assert (Hcol : forall k, nth k col (flit 0) = proba k \/ 313 <= k).
  { intros k. destruct (Nat.lt_ge_cases k 313) as [Hk|Hk]; [left|now right].
    unfold col, pixel_column, proba.
    rewrite (nth_indep _ (flit 0) (at2 (flit 0) [] h w))
      by (rewrite length_map; destruct Hproba as [Hl _];
          apply Nat.lt_le_trans with 313;
          [exact Hk | apply Nat.eq_le_incl; symmetry; exact Hl]).
    exact (map_nth (fun plane => at2 (flit 0) plane h w) (proba_distrib e) [] k). }
  destruct (argmax_spec (flit 0) Hne) as (Hb & Hmax & Hfirst).
  rewrite Hlen in Hb, Hmax.
  exists (argmax col). split; [exact Hb|]. split; [|split].
  - rewrite (get_initialized_image_entries e Hproba Hc).
    unfold pixel_ab. cbn [nth]. rewrite !at2_tabulate2 by assumption.
    fold col. rewrite !fmul_1_r, nth_map_fst, nth_map_snd.
    now destruct (nth (argmax col) coefs_to_128 (flit 0, flit 0)).
  - intros k Hk. specialize (Hmax k Hk).
    destruct (Hcol k) as [Ek|]; [|lia].
    destruct (Hcol (argmax col)) as [Eb|]; [|lia].
    now rewrite Ek, Eb in Hmax.
  - intros k Hk. specialize (Hfirst k Hk).
    destruct (Hcol k) as [Ek|]; [|lia].
    destruct (Hcol (argmax col)) as [Eb|]; [|lia].
    now rewrite Ek, Eb in Hfirst.
Qed.

(** X20: the bin whose coefficients the initial target carries at a pixel is a
    bin of greatest predicted probability there, and the lowest of them:
    no bin is strictly more probable, every bin of lower index is strictly
    less probable. *)
Theorem initial_target_bin_is_mode (e : ECCVImage F) (h w : nat) :
  is_tensor 313 64 64 (proba_distrib e) ->
  length COEFS = 313 ->
  h < 64 -> w < 64 ->
  let proba := fun k => at2 (flit 0) (nth k (proba_distrib e) []) h w in
  exists bin,
    bin < 313
    /\ pixel_ab (get_initialized_image e ones_313) h w
       = nth bin coefs_to_128 (flit 0, flit 0)
    /\ (forall k, k < 313 -> fltb (proba bin) (proba k) = false)
    /\ (forall k, k < bin -> fltb (proba k) (proba bin) = true).
Proof. exact (@initial_target_bin_is_mode_aux e h w). Qed.

(** X21: where no bin is strictly more probable than bin 0 (a uniform
    distribution, for one), the initial target carries the coefficients of
    bin 0. *)
Theorem initial_target_ties_to_bin_0 (e : ECCVImage F) (h w : nat) :
  is_tensor 313 64 64 (proba_distrib e) ->
  length COEFS = 313 ->
  h < 64 -> w < 64 ->
  (forall k, k < 313 ->
     fltb (at2 (flit 0) (nth 0 (proba_distrib e) []) h w)
          (at2 (flit 0) (nth k (proba_distrib e) []) h w) = false) ->
  pixel_ab (get_initialized_image e ones_313) h w = nth 0 coefs_to_128 (flit 0, flit 0).
Proof.
  intros Hproba Hc Hh Hw Htie.
  destruct (@initial_target_bin_is_mode_aux e h w Hproba Hc Hh Hw)
    as (bin & Hb & Hpx & _ & Hfirst).
  destruct bin as [|bin]; [exact Hpx|].
  assert (H0 : 0 < S bin) by lia.
  specialize (Hfirst 0 H0). rewrite Htie in Hfirst by exact Hb. discriminate Hfirst.
Qed.
End Mode.

Lemma example_uniform_column (k : nat) :
  k < 313 ->
  at2 (flit 0) (nth k (proba_distrib (eccv example_loria)) []) 3 5 = Q2Qc (1 # 313).
Proof.
  intros Hk.
  change (proba_distrib (eccv example_loria))
    with (repeat (full 64 64 (Q2Qc (1 # 313))) 313).
  rewrite repeat_tabulate, tabulate_nth by exact Hk.
  rewrite full_tabulate2. apply at2_tabulate2; lia.
Qed.

Lemma initial_target_bin_is_mode_witness :
  let proba := fun k => at2 (flit 0) (nth k (proba_distrib (eccv example_loria)) []) 3 5 in
  exists bin,
    bin < 313
    /\ pixel_ab (get_initialized_image (eccv example_loria) ones_313) 3 5
       = nth bin coefs_to_128 (flit 0, flit 0)
    /\ (forall k, k < 313 -> fltb (proba bin) (proba k) = false)
    /\ (forall k, k < bin -> fltb (proba k) (proba bin) = true).
Proof.
  assert (H3 : 3 < 64) by lia. assert (H5 : 5 < 64) by lia.
  exact (@initial_target_bin_is_mode Qc Qc_scalar example_externals Qc_laws
           (eccv example_loria) 3 5
           example_eccv_proba_shape example_COEFS_length H3 H5).
Defined.

Lemma initial_target_ties_to_bin_0_witness :
  pixel_ab (get_initialized_image (eccv example_loria) ones_313) 3 5
  = nth 0 coefs_to_128 (flit 0, flit 0).
Proof.
  assert (H3 : 3 < 64) by lia. assert (H5 : 5 < 64) by lia.
  apply (@initial_target_ties_to_bin_0 Qc Qc_scalar example_externals Qc_laws
           (eccv example_loria) 3 5
           example_eccv_proba_shape example_COEFS_length H3 H5).
  intros k Hk.
  assert (H0 : 0 < 313) by lia.
  rewrite (example_uniform_column H0), (example_uniform_column Hk).
  reflexivity.
Defined.
